(** * Whale: deferred loan-scheme indexer and loan-vault read model

    A shallow embedding of
    - the [SetDeferredLoanSchemeIndexer] class ([index], [invalidate],
      [getPrevLoanScheme], [getCurrentLoanScheme]), and
    - the [LoanVaultService] class of [module.api/loan.vault.service.ts]
      ([get], [listAuction], [mapTokenAmounts], [mapLiquidationBatches], ...),
    followed by the properties of the two that the specification states and
    by further properties read off the code. *)

From Stdlib Require Import ZArith String Ascii List Lia.
From stdpp Require Import gmap strings list fin_maps.

Local Open Scope string_scope.
Local Open Scope Z_scope.

(** ** Part I: the deferred loan-scheme indexer *)

Module Indexer.

(** The columns of a loan scheme besides its identifier.  [LoanScheme],
    [DeferredLoanScheme] and [LoanSchemeHistory] objects are handed from one
    mapper to the other unchanged ([loanSchemeMapper.put(each)],
    [deferredLoanSchemeMapper.put(prevDeferredLoanScheme)],
    [loanSchemeMapper.put(prevLoanScheme)]), so they share these columns.
    [activateAfterBlock] is the BigNumber the block height is compared to. *)
Record SchemeBody := mkBody {
  minColRatio : Z;
  interestRate : string;
  activateAfterBlock : Z
}.

(** A model object as the mappers return and accept it: the [id] it is keyed
    by and its columns. *)
Record Scheme := mkScheme {
  id : string;
  body : SchemeBody
}.

(** A [LoanSchemeHistory] row: the scheme's columns at a block height. *)
Record HistoryRow := mkRow {
  rowHeight : Z;
  rowBody : SchemeBody
}.

#[global] Instance SchemeBody_eq_dec : EqDecision SchemeBody.
Proof. solve_decision. Defined.
#[global] Instance Scheme_eq_dec : EqDecision Scheme.
Proof. solve_decision. Defined.
#[global] Instance HistoryRow_eq_dec : EqDecision HistoryRow.
Proof. solve_decision. Defined.

(** Modelled from the spec: the persistence mappers ([LoanSchemeMapper],
    [DeferredLoanSchemeMapper], [LoanSchemeHistoryMapper]) are external
    collaborators with the capability set
    [get(id) -> value|absent], [put(value)], [delete(id)] and
    [query(key, limit) -> ordered sequence].  A table is a finite map from
    the model's [id] to its columns; [query limit] returns the first [limit]
    rows in the table's (fixed but unspecified) scan order. *)
Abbreviation Table := (gmap string SchemeBody).

Definition mapper_get (t : Table) (k : string) : option Scheme :=
  mkScheme k <$> t !! k.

Definition mapper_put (t : Table) (m : Scheme) : Table :=
  <[id m := body m]> t.

Definition mapper_delete (t : Table) (k : string) : Table :=
  delete k t.

Definition mapper_scan (t : Table) : list Scheme :=
  (fun kb : string * SchemeBody => mkScheme kb.1 kb.2) <$> map_to_list t.

Definition mapper_query (limit : nat) (t : Table) : list Scheme :=
  take limit (mapper_scan t).

(** Modelled from the spec: the history mapper, keyed by (identifier, height)
    and queried most-recent-first; each identifier maps to its rows, the most
    recent at the head.  A row is returned as the model object of its scheme. *)
Abbreviation HistoryTable := (gmap string (list HistoryRow)).

Definition history_query (t : HistoryTable) (k : string) (limit : nat)
  : list Scheme :=
  take limit ((fun r => mkScheme k (rowBody r)) <$> default [] (t !! k)).

(** The three tables the indexer is constructed with. *)
Record Store := mkStore {
  loanSchemes : Table;
  histories : HistoryTable;
  deferredLoanSchemes : Table
}.

#[global] Instance Store_eq_dec : EqDecision Store.
Proof. solve_decision. Defined.

(** [RawBlock]: only the height is read. *)
Record RawBlock := mkBlock { height : Z }.

(** [DfTxTransaction<LoanScheme>]: the decoded [dftx.data] of the
    transaction. *)
Record DfTx := mkTx {
  identifier : string;
  ratio : Z;
  rate : string;
  update : Z
}.

(** [new NotFoundIndexerError(action, type, id)]. *)
Record NotFoundIndexerError := mkNotFound {
  nf_action : string;
  nf_type : string;
  nf_id : string
}.

(** *** A state-and-exception monad for the async methods

    A thrown error leaves the store as the writes before it made it. *)
Definition M (A : Type) : Type := Store -> Store * (NotFoundIndexerError + A).

Definition ret {A} (a : A) : M A := fun s => (s, inr a).
Definition throw {A} (e : NotFoundIndexerError) : M A := fun s => (s, inl e).
Definition bind {A B} (m : M A) (k : A -> M B) : M B :=
  fun s => match m s with
           | (s', inr a) => k a s'
           | (s', inl e) => (s', inl e)
           end.

Declare Scope indexer_scope.
Delimit Scope indexer_scope with indexer.
Notation "x <- m ;; k" := (bind m (fun x => k))
  (at level 100, m at next level, right associativity) : indexer_scope.
Notation "m ;;; k" := (bind m (fun _ => k))
  (at level 100, right associativity) : indexer_scope.
Local Open Scope indexer_scope.

Definition loanSchemeMapper_get (k : string) : M (option Scheme) :=
  fun s => (s, inr (mapper_get (loanSchemes s) k)).

Definition loanSchemeMapper_put (m : Scheme) : M unit :=
  fun s => (mkStore (mapper_put (loanSchemes s) m) (histories s)
                    (deferredLoanSchemes s), inr tt).

Definition deferredLoanSchemeMapper_put (m : Scheme) : M unit :=
  fun s => (mkStore (loanSchemes s) (histories s)
                    (mapper_put (deferredLoanSchemes s) m), inr tt).

Definition deferredLoanSchemeMapper_delete (k : string) : M unit :=
  fun s => (mkStore (loanSchemes s) (histories s)
                    (mapper_delete (deferredLoanSchemes s) k), inr tt).

Definition deferredLoanSchemeMapper_query (limit : nat) : M (list Scheme) :=
  fun s => (s, inr (mapper_query limit (deferredLoanSchemes s))).

Definition loanSchemeHistoryMapper_query (k : string) (limit : nat)
  : M (list Scheme) :=
  fun s => (s, inr (history_query (histories s) k limit)).

(** [for (const x of xs) { await body(x) }] *)
Fixpoint forOf {A} (xs : list A) (f : A -> M unit) : M unit :=
  match xs with
  | [] => ret tt
  | x :: rest => f x ;;; forOf rest f
  end.

(** *** The indexer's methods *)

(** [new BigNumber(block.height).gte(each.activateAfterBlock)] *)
Definition due (block : RawBlock) (each : Scheme) : bool :=
  activateAfterBlock (body each) <=? height block.

Definition index (block : RawBlock) : M unit :=
  list <- deferredLoanSchemeMapper_query 100 ;;
  forOf list (fun each =>
    if due block each then
      loanSchemeMapper_put each ;;;
      deferredLoanSchemeMapper_delete (id each)
    else ret tt).

(** Get previous loan scheme before current height *)
Definition getPrevLoanScheme (loanSchemeId : string) : M Scheme :=
  histories <- loanSchemeHistoryMapper_query loanSchemeId 1 ;;
  match histories with
  | [] => throw (mkNotFound "index" "LoanSchemeHistory" loanSchemeId)
  | first :: _ => ret first
  end.

(** Get current loan scheme which is prev deferred loan scheme *)
Definition getCurrentLoanScheme (loanSchemeId : string) : M Scheme :=
  prevDeferredLoanScheme <- loanSchemeMapper_get loanSchemeId ;;
  match prevDeferredLoanScheme with
  | None => throw (mkNotFound "index" "LoanScheme" loanSchemeId)
  | Some found => ret found
  end.

(** The body of [invalidate]'s loop for one transaction. *)
Definition invalidateTxn (txn : DfTx) : M unit :=
  prevDeferredLoanScheme <- getCurrentLoanScheme (identifier txn) ;;
  prevLoanScheme <- getPrevLoanScheme (identifier txn) ;;
  deferredLoanSchemeMapper_put prevDeferredLoanScheme ;;;
  loanSchemeMapper_put prevLoanScheme.

Definition invalidate (_ : RawBlock) (txns : list DfTx) : M unit :=
  forOf txns invalidateTxn.

(** Running a method: the store it leaves and whether it threw. *)
Definition run {A} (m : M A) (s : Store) : Store := (m s).1.
Definition outcome {A} (m : M A) (s : Store) : NotFoundIndexerError + A :=
  (m s).2.

(** *** Vocabulary of the statements *)

(** What one turn of [index]'s loop does to the store for a due entry. *)
Definition promote (s : Store) (each : Scheme) : Store :=
  mkStore (mapper_put (loanSchemes s) each) (histories s)
          (mapper_delete (deferredLoanSchemes s) (id each)).

(** The entries [index] promotes at [block]: the scanned ones that are due. *)
Definition promoted (block : RawBlock) (s : Store) : list Scheme :=
  List.filter (due block) (mapper_query 100 (deferredLoanSchemes s)).

(** The scheme [k] lacks its current record or has no history row. *)
Definition missing (s : Store) (k : string) : Prop :=
  mapper_get (loanSchemes s) k = None \/ history_query (histories s) k 1 = [].

(** The most recent history row of scheme [k] is its current record. *)
Definition recorded (s : Store) (k : string) : Prop :=
  is_Some (mapper_get (loanSchemes s) k) /\
  head (history_query (histories s) k 1) = mapper_get (loanSchemes s) k.

#[global] Instance recorded_dec s k : Decision (recorded s k).
Proof. unfold recorded. apply _. Defined.

End Indexer.

(** ** Part II: the loan-vault read model *)

Module Js.

(** A JavaScript Number as [parseInt] returns it: NaN or an integer.  (The
    integer is kept exact; a Number rounds it beyond 2^53.) *)
Inductive Number := NaN | Num (v : Z).

#[global] Instance Number_eq_dec : EqDecision Number.
Proof. solve_decision. Defined.

(** [String.prototype.substr(start, length)] and [substr(start)], on strings
    of one-byte characters. *)
Definition substr (s : string) (start len : nat) : string :=
  String.substring start len s.

Definition substr_from (s : string) (start : nat) : string :=
  String.substring start (String.length s - start) s.

(** [String.prototype.split(separator)] for a one-character separator. *)
Fixpoint split_go (sep : ascii) (s : string) (piece : string) : list string :=
  match s with
  | EmptyString => [piece]
  | String c rest =>
      if Ascii.eqb c sep then piece :: split_go sep rest EmptyString
      else split_go sep rest (piece ++ String c EmptyString)%string
  end.

Definition split (sep : ascii) (s : string) : list string :=
  split_go sep s EmptyString.
Arguments split sep%_char s%_string.

(** [parseInt(string)] with no radix (ECMAScript 19.2.5): leading white space
    is dropped, then an optional sign, then [0x]/[0X] selects radix 16; the
    longest prefix of digits is read, and no digit gives NaN. *)
Definition isWhiteSpace (c : ascii) : bool :=
  let n := nat_of_ascii c in
  ((9 <=? n)%nat && (n <=? 13)%nat) || (n =? 32)%nat.

Fixpoint trimStart (s : string) : string :=
  match s with
  | String c rest => if isWhiteSpace c then trimStart rest else s
  | EmptyString => s
  end.

Definition digitValue (c : ascii) : option Z :=
  let n := Z.of_nat (nat_of_ascii c) in
  if (48 <=? n) && (n <=? 57) then Some (n - 48)
  else if (97 <=? n) && (n <=? 122) then Some (n - 87)
  else if (65 <=? n) && (n <=? 90) then Some (n - 55)
  else None.

Fixpoint digits (radix : Z) (s : string) (acc : option Z) : option Z :=
  match s with
  | EmptyString => acc
  | String c rest =>
      match digitValue c with
      | Some d =>
          if d <? radix then digits radix rest (Some (default 0 acc * radix + d))
          else acc
      | None => acc
      end
  end.

Definition parseInt (input : string) : Number :=
  let s := trimStart input in
  let '(sign, s) :=
    match s with
    | String "-" rest => (-1, rest)
    | String "+" rest => (1, rest)
    | _ => (1, s)
    end in
  let '(radix, s) :=
    match s with
    | String "0" (String "x" rest) | String "0" (String "X" rest) => (16, rest)
    | _ => (10, s)
    end in
  match digits radix s None with
  | None => NaN
  | Some mathInt => Num (sign * mathInt)
  end.

(** [String(n)] for an integer [n]. *)
Fixpoint natDigits (fuel n : nat) (acc : string) : string :=
  match fuel with
  | O => acc
  | S fuel' =>
      let acc' := String (ascii_of_nat (48 + n mod 10)) acc in
      if (n <? 10)%nat then acc' else natDigits fuel' (n / 10) acc'
  end.

Definition natToString (n : nat) : string := natDigits (S n) n EmptyString.

Definition intToString (z : Z) : string :=
  if z <? 0 then ("-" ++ natToString (Z.abs_nat z))%string
  else natToString (Z.abs_nat z).

(** *** [Array.prototype.sort(comparefn)]

    The order [comparefn] reports, as the engine reads it (SortCompare): a NaN
    result counts as +0. *)
Definition sortCompare {A} (comparefn : A -> A -> Number) (x y : A) : Z :=
  match comparefn x y with NaN => 0 | Num v => v end.

(** The sort as V8, the engine of Node.js, runs it (array-sort.tq) on arrays
    of fewer than 64 elements: the initial run is counted ([CountAndMakeRun]:
    ascending, or strictly descending and then reversed), and the elements
    after it are put in place by binary insertion.  On longer arrays V8 cuts
    and merges runs in addition; an array that is one run, as when the
    comparator is never negative, is left alone at every length. *)
Fixpoint runRest {A} (order : A -> A -> Z) (isDescending : bool)
    (previousElement : A) (l : list A) : list A * list A :=
  match l with
  | [] => ([], [])
  | currentElement :: rest =>
      let o := order currentElement previousElement in
      if (if isDescending then 0 <=? o else o <? 0) then ([], l)
      else
        let '(run, tail) := runRest order isDescending currentElement rest in
        (currentElement :: run, tail)
  end.

Definition countAndMakeRun {A} (order : A -> A -> Z) (l : list A)
  : list A * list A :=
  match l with
  | elementHigh :: elementLow :: rest =>
      let isDescending := order elementLow elementHigh <? 0 in
      let '(run, tail) := runRest order isDescending elementLow rest in
      let whole := elementHigh :: elementLow :: run in
      (if isDescending then rev whole else whole, tail)
  | _ => (l, [])
  end.

Fixpoint binarySearch {A} (fuel : nat) (order : A -> A -> Z)
    (sorted : list A) (pivot : A) (left right : nat) : nat :=
  match fuel with
  | O => left
  | S fuel' =>
      if (left <? right)%nat then
        let mid := (left + (right - left) / 2)%nat in
        match sorted !! mid with
        | Some midElement =>
            if order pivot midElement <? 0
            then binarySearch fuel' order sorted pivot left mid
            else binarySearch fuel' order sorted pivot (mid + 1)%nat right
        | None => left
        end
      else left
  end.

Definition binaryInsert {A} (order : A -> A -> Z) (sorted : list A) (pivot : A)
  : list A :=
  let left :=
    binarySearch (S (length sorted)) order sorted pivot 0 (length sorted) in
  take left sorted ++ pivot :: drop left sorted.

Definition sort {A} (comparefn : A -> A -> Number) (l : list A) : list A :=
  let order := sortCompare comparefn in
  let '(run, tail) := countAndMakeRun order l in
  foldl (binaryInsert order) run tail.

End Js.

Module VaultService.

Import Js.

(** What the service's methods throw. *)
Inductive Exn :=
| RpcApiError (code : Z) (message : string)
| NotFoundException (message : string)
| ConflictException (message : string)
| BadRequestException (cause : Exn)
| TypeError (message : string)
| OtherError (message : string).

#[global] Instance Exn_eq_dec : EqDecision Exn.
Proof. solve_decision. Defined.

(** An async method either returns or throws. *)
Definition Async (A : Type) : Type := Exn + A.

Definition bind {A B} (m : Async A) (k : A -> Async B) : Async B :=
  match m with
  | inr a => k a
  | inl err => inl err
  end.

Declare Scope vault_scope.
Delimit Scope vault_scope with vault.
Notation "x <- m ;; k" := (bind m (fun x => k))
  (at level 100, m at next level, right associativity) : vault_scope.
Local Open Scope vault_scope.

(** [await Promise.all(xs.map(async x => f x))], and [xs.map(f)] for an [f]
    that may throw.  When several elements fail, the error of the earliest
    one is kept ([Promise.all] keeps the one that is rejected first in
    time); nothing below depends on which. *)
Fixpoint promiseAll {A B} (f : A -> Async B) (xs : list A) : Async (list B) :=
  match xs with
  | [] => inr []
  | x :: rest =>
      y <- f x ;;
      ys <- promiseAll f rest ;;
      inr (y :: ys)
  end.

Inductive VaultState := UNKNOWN | ACTIVE | FROZEN | IN_LIQUIDATION | MAY_LIQUIDATE.
Inductive LoanVaultState :=
  LV_UNKNOWN | LV_ACTIVE | LV_FROZEN | LV_IN_LIQUIDATION | LV_MAY_LIQUIDATE.

#[global] Instance VaultState_eq_dec : EqDecision VaultState.
Proof. solve_decision. Defined.

Definition mapLoanVaultState (state : VaultState) : LoanVaultState :=
  match state with
  | UNKNOWN => LV_UNKNOWN
  | ACTIVE => LV_ACTIVE
  | FROZEN => LV_FROZEN
  | IN_LIQUIDATION => LV_IN_LIQUIDATION
  | MAY_LIQUIDATE => LV_MAY_LIQUIDATE
  end.

(** [PaginationQuery] *)
Record PaginationQuery := mkQuery {
  size : Z;
  next : option string
}.

(** [AuctionPagination]: [start] is absent on the first page. *)
Record AuctionPaginationStart := mkStart {
  start_vaultId : string;
  start_height : Number
}.

Record AuctionPagination := mkAuctionPagination {
  start : option AuctionPaginationStart;
  limit : Z
}.

#[global] Instance AuctionPaginationStart_eq_dec : EqDecision AuctionPaginationStart.
Proof. solve_decision. Defined.
#[global] Instance AuctionPagination_eq_dec : EqDecision AuctionPagination.
Proof. solve_decision. Defined.

Record VaultPagination := mkVaultPagination {
  vp_start : option string;
  vp_limit : Z
}.

(** The pagination [listAuction] hands to the node (the body of the method
    up to the call of [client.loan.listAuctions]).  [substr] returns a string,
    so [height] is a defined value when it is tested. *)
Definition auctionPagination (query : PaginationQuery) : AuctionPagination :=
  let next := next query in
  let size := if 30 <? size query then 30 else size query in
  match next with
  | Some next =>
      let vaultId := substr next 0 64 in
      let height : option string := Some (substr_from next 64) in
      {| start := Some {| start_vaultId := vaultId;
                          start_height := match height with
                                          | Some height => parseInt height
                                          | None => Num 0
                                          end |};
         limit := size |}
  | None => {| start := None; limit := size |}
  end.

(** The message the node answers an identifier of the wrong length with;
    [get] quotes it for the identifier [999]. *)
Definition lengthMessage (id : string) : string :=
  "vaultId must be of length 64 (not " ++ natToString (String.length id)
  ++ ", for '" ++ id ++ "')".

(** The message the node answers an unknown vault with. *)
Definition notFoundMessage (id : string) : string :=
  "Vault <" ++ id ++ "> not found".

(** The [catch] clause of [get]. *)
Definition translate (id : string) (err : Exn) : Exn :=
  match err with
  | RpcApiError _ message =>
      if bool_decide (message = "Vault <" ++ id ++ "> not found")
         || bool_decide (message = "vaultId must be of length 64 (not 3, for '999')")
      then NotFoundException "Unable to find vault"
      else BadRequestException err
  | _ => BadRequestException err
  end.

Section Service.

(** [BigNumber] with its [toFixed], and the [ActivePrice] rows, are taken as
    they come. *)
Variables (BigNumber ActivePrice : Type).
Variable toFixed : BigNumber -> string.

(** [TokenInfo]: the fields read here. *)
Record TokenInfo := mkTokenInfo {
  ti_symbol : string;
  ti_symbolKey : string;
  ti_name : string;
  ti_isDAT : bool;
  ti_isLPS : bool
}.

Record LoanVaultTokenAmount := mkTokenAmount {
  id : option string;
  amount : string;
  symbol : string;
  symbolKey : string;
  name : string;
  displaySymbol : string;
  activePrice : option ActivePrice
}.

(** [VaultLiquidationBatch]; [loan] is [None] when the object carries no
    loan. *)
Record VaultLiquidationBatch := mkBatch {
  index : Z;
  collaterals : list (option string);
  loan : option string
}.

Record LoanVaultLiquidationBatch := mkBatchView {
  bv_index : Z;
  bv_collaterals : list LoanVaultTokenAmount;
  bv_loan : option LoanVaultTokenAmount
}.

(** The fields every vault object has, and those of either shape. *)
Record VaultCommon := mkCommon {
  vaultId : string;
  loanSchemeId : string;
  ownerAddress : string;
  state : VaultState
}.

Record ActiveFields := mkActive {
  informativeRatio : BigNumber;
  collateralRatio : BigNumber;
  collateralValue : BigNumber;
  loanValue : BigNumber;
  interestValue : BigNumber;
  collateralAmounts : option (list (option string));
  loanAmounts : option (list (option string));
  interestAmounts : option (list (option string))
}.

Record LiquidationFields := mkLiquidation {
  liquidationHeight : Z;
  liquidationPenalty : Z;
  batchCount : Z;
  batches : list VaultLiquidationBatch
}.

Inductive Vault :=
| VaultActive (common : VaultCommon) (fields : ActiveFields)
| VaultLiquidation (common : VaultCommon) (fields : LiquidationFields).

Definition common (details : Vault) : VaultCommon :=
  match details with
  | VaultActive c _ | VaultLiquidation c _ => c
  end.

(** [{ ...loanScheme, default: loanScheme.id === defaultScheme.id }] *)
Record LoanSchemeView := mkSchemeView {
  scheme : Indexer.Scheme;
  isDefault : bool
}.

Record LoanVaultActive := mkVaultActive {
  va_vaultId : string;
  va_loanScheme : LoanSchemeView;
  va_ownerAddress : string;
  va_state : LoanVaultState;
  va_informativeRatio : string;
  va_collateralRatio : string;
  va_collateralValue : string;
  va_loanValue : string;
  va_interestValue : string;
  va_collateralAmounts : list LoanVaultTokenAmount;
  va_loanAmounts : list LoanVaultTokenAmount;
  va_interestAmounts : list LoanVaultTokenAmount
}.

Record LoanVaultLiquidated := mkVaultLiquidated {
  vl_vaultId : string;
  vl_loanScheme : LoanSchemeView;
  vl_ownerAddress : string;
  vl_state : LoanVaultState;
  vl_batchCount : Z;
  vl_liquidationHeight : Z;
  vl_liquidationPenalty : Z;
  vl_batches : list LoanVaultLiquidationBatch
}.

Definition LoanVault : Type := LoanVaultActive + LoanVaultLiquidated.

(** The collaborators the service is constructed with, and the helpers it
    imports.  A [TokenResult] is the object the node describes a token
    with: its keys (token ids) with their [TokenInfo], in key order. *)
Record Collaborators := mkCollaborators {
  client_loan_getVault : string -> Async Vault;
  client_loan_listVaults :
    VaultPagination -> option string -> Async (list Vault);
  client_loan_listAuctions : AuctionPagination -> Async (list Vault);
  deFiDCache_batchTokenInfoBySymbol :
    list (option string) -> string -> option (list (string * TokenInfo));
  activePriceMapper_query : string -> nat -> list ActivePrice;
  loanSchemeMapper_get : string -> option Indexer.Scheme;
  defaultLoanSchemeMapper_get : option string;
  parseDisplaySymbol : TokenInfo -> string
}.

Variable this : Collaborators.

Definition mapLoanVaultTokenAmount (id : option string)
    (tokenInfo : option TokenInfo) (amount : string)
    (activePrice : option ActivePrice) : Async LoanVaultTokenAmount :=
  match tokenInfo with
  | None => inl (TypeError "Cannot read properties of undefined (reading 'symbol')")
  | Some tokenInfo =>
      inr {| id := id;
             amount := amount;
             symbol := ti_symbol tokenInfo;
             symbolKey := ti_symbolKey tokenInfo;
             name := ti_name tokenInfo;
             displaySymbol := parseDisplaySymbol this tokenInfo;
             activePrice := activePrice |}
  end.

(** A property key or template hole filled with a possibly undefined
    string. *)
Definition toKey (symbol : option string) : string :=
  default "undefined" symbol.

(** The comparator [mapTokenAmounts] sorts with: [a => Number.parseInt(a.id)],
    called with two elements. *)
Definition comparefn (a _ : LoanVaultTokenAmount) : Number :=
  parseInt (toKey (id a)).

Definition mapTokenAmounts (items : option (list (option string)))
  : Async (list LoanVaultTokenAmount) :=
  match items with
  | None | Some [] => inr []
  | Some items =>
      tokenAmounts <- promiseAll (fun value : option string =>
          match value with
          | Some value => inr (split "@" value)
          | None => inl (TypeError "Cannot read properties of undefined (reading 'split')")
          end) items ;;
      let tokenInfos := deFiDCache_batchTokenInfoBySymbol this
          ((fun pair : list string => pair !! 1%nat) <$> tokenAmounts) in
      mappedItems <- promiseAll (fun pair : list string =>
          let amount := default "" (pair !! 0%nat) in
          let symbol := pair !! 1%nat in
          match tokenInfos (toKey symbol) with
          | None => inl (ConflictException "unable to find token")
          | Some result =>
              let info := snd <$> head result in
              let id := fst <$> head result in
              let activePrice :=
                activePriceMapper_query this (toKey symbol ++ "-USD") 1 in
              mapLoanVaultTokenAmount id info amount (head activePrice)
          end) tokenAmounts ;;
      inr (sort comparefn mappedItems)
  end.

Definition mapLiquidationBatches (batches : list VaultLiquidationBatch)
  : Async (list LoanVaultLiquidationBatch) :=
  match batches with
  | [] => inr []
  | _ =>
      promiseAll (fun batch =>
        collaterals <- mapTokenAmounts (Some (collaterals batch)) ;;
        loan <- mapTokenAmounts (Some [loan batch]) ;;
        inr {| bv_index := index batch;
               bv_collaterals := collaterals;
               bv_loan := head loan |}) batches
  end.

(** The two lookups [mapLoanVault] and [mapLoanAuction] begin with. *)
Definition resolveScheme (loanSchemeId : string) : Async LoanSchemeView :=
  match loanSchemeMapper_get this loanSchemeId with
  | None => inl (NotFoundException "unable to find loan scheme")
  | Some loanScheme =>
      match defaultLoanSchemeMapper_get this with
      | None => inl (NotFoundException "Unable to find default scheme")
      | Some defaultSchemeId =>
          inr {| scheme := loanScheme;
                 isDefault := bool_decide (Indexer.id loanScheme = defaultSchemeId) |}
      end
  end.

(** [details] is read as a [VaultLiquidation]; on an object of the other
    shape [data.batches] is undefined. *)
Definition mapLoanAuction (details : Vault) : Async LoanVaultLiquidated :=
  loanScheme <- resolveScheme (loanSchemeId (common details)) ;;
  match details with
  | VaultLiquidation data fields =>
      batches <- mapLiquidationBatches (batches fields) ;;
      inr {| vl_vaultId := vaultId data;
             vl_loanScheme := loanScheme;
             vl_ownerAddress := ownerAddress data;
             vl_state := LV_IN_LIQUIDATION;
             vl_batchCount := batchCount fields;
             vl_liquidationHeight := liquidationHeight fields;
             vl_liquidationPenalty := liquidationPenalty fields;
             vl_batches := batches |}
  | VaultActive _ _ =>
      inl (TypeError "Cannot read properties of undefined (reading 'length')")
  end.

Definition mapLoanVault (details : Vault) : Async LoanVault :=
  if bool_decide (state (common details) = IN_LIQUIDATION) then
    auction <- mapLoanAuction details ;; inr (inr auction)
  else
    loanScheme <- resolveScheme (loanSchemeId (common details)) ;;
    match details with
    | VaultActive data fields =>
        collateralAmounts <- mapTokenAmounts (collateralAmounts fields) ;;
        loanAmounts <- mapTokenAmounts (loanAmounts fields) ;;
        interestAmounts <- mapTokenAmounts (interestAmounts fields) ;;
        inr (inl {| va_vaultId := vaultId data;
                    va_loanScheme := loanScheme;
                    va_ownerAddress := ownerAddress data;
                    va_state := mapLoanVaultState (state data);
                    va_informativeRatio := toFixed (informativeRatio fields);
                    va_collateralRatio := toFixed (collateralRatio fields);
                    va_collateralValue := toFixed (collateralValue fields);
                    va_loanValue := toFixed (loanValue fields);
                    va_interestValue := toFixed (interestValue fields);
                    va_collateralAmounts := collateralAmounts;
                    va_loanAmounts := loanAmounts;
                    va_interestAmounts := interestAmounts |})
    | VaultLiquidation _ _ =>
        inl (TypeError "Cannot read properties of undefined (reading 'toFixed')")
    end.

Definition get (id : string) : Async LoanVault :=
  match (vault <- client_loan_getVault this id ;; mapLoanVault vault) with
  | inr view => inr view
  | inl err => inl (translate id err)
  end.

(** [list] (here [listVaults]) and [listAuction] up to the paging envelope
    ([ApiPagedResponse.of(items, size, cursor)]): the items, the page size and
    the cursor of each item. *)
Record Page (A : Type) := mkPage {
  items : list A;
  pageSize : Z;
  cursors : list string
}.

Definition listVaults (query : PaginationQuery) (address : option string)
  : Async (Page LoanVault) :=
  let size := if 30 <? size query then 30 else size query in
  let pagination := {| vp_start := next query; vp_limit := size |} in
  list <- client_loan_listVaults this pagination address ;;
  items <- promiseAll mapLoanVault list ;;
  inr (mkPage _ items size
         ((fun item : LoanVault =>
             match item with
             | inl v => va_vaultId v
             | inr v => vl_vaultId v
             end) <$> items)).

Definition listAuction (query : PaginationQuery)
  : Async (Page LoanVaultLiquidated) :=
  let size := if 30 <? size query then 30 else size query in
  let pagination := auctionPagination query in
  list <- client_loan_listAuctions this pagination ;;
  items <- promiseAll mapLoanAuction list ;;
  inr (mkPage _ items size
         ((fun item => vl_vaultId item ++ intToString (vl_liquidationHeight item))
            <$> items)).

End Service.

Arguments mapLoanVaultTokenAmount {BigNumber ActivePrice} this.
Arguments mapTokenAmounts {BigNumber ActivePrice} this items.
Arguments mapLiquidationBatches {BigNumber ActivePrice} this batches.
Arguments resolveScheme {BigNumber ActivePrice} this loanSchemeId.
Arguments mapLoanAuction {BigNumber ActivePrice} this details.
Arguments mapLoanVault {BigNumber ActivePrice} toFixed this details.
Arguments get {BigNumber ActivePrice} toFixed this id.
Arguments listVaults {BigNumber ActivePrice} toFixed this query address.
Arguments listAuction {BigNumber ActivePrice} this query.
Arguments comparefn {ActivePrice} a _.
Arguments common {BigNumber} details.
Arguments id {ActivePrice} _.
Arguments amount {ActivePrice} _.
Arguments activePrice {ActivePrice} _.
Arguments bv_index {ActivePrice} _.
Arguments bv_collaterals {ActivePrice} _.
Arguments bv_loan {ActivePrice} _.
Arguments client_loan_getVault {BigNumber ActivePrice} _ _.
Arguments client_loan_listAuctions {BigNumber ActivePrice} _ _.

End VaultService.

(** ** Sample data for the statements below *)

Module Samples.

Import Indexer.

Definition bodyOld : SchemeBody := mkBody 150 "5" 0.
Definition bodyNew : SchemeBody := mkBody 200 "3" 10.

(** Scheme S1 is current with [bodyOld], recorded in its history at height
    4, and has a deferred update due at height 10. *)
Definition pending : Store :=
  mkStore {[ "S1" := bodyOld ]} {[ "S1" := [mkRow 4 bodyOld] ]}
          {[ "S1" := bodyNew ]}.

(** As [pending], but the history row of S1 is not its current record. *)
Definition pendingStale : Store :=
  mkStore {[ "S1" := bodyOld ]} {[ "S1" := [mkRow 4 (mkBody 120 "9" 0)] ]}
          {[ "S1" := bodyNew ]}.

(** The same scheme once the update is current. *)
Definition activated : Store :=
  mkStore {[ "S1" := bodyNew ]} {[ "S1" := [mkRow 4 bodyOld] ]} ∅.

(** Scheme S2 is current but has no history row. *)
Definition unrecorded : Store :=
  mkStore {[ "S1" := bodyNew; "S2" := bodyOld ]}
          {[ "S1" := [mkRow 4 bodyOld] ]} ∅.

(** A store with 101 deferred entries, named 0 to 100, all due by height 6. *)
Definition crowded : Store :=
  mkStore ∅ ∅
    (list_to_map
       ((fun i : nat => (Js.natToString i, mkBody 150 "5" (Z.of_nat i mod 7)))
          <$> seq 0 101)).

Definition block9 : RawBlock := mkBlock 9.
Definition block10 : RawBlock := mkBlock 10.
Definition txS1 : DfTx := mkTx "S1" 200 "3" 10.
Definition txS2 : DfTx := mkTx "S2" 150 "5" 0.

End Samples.

Module VaultSamples.

Import Js VaultService.

(** Three tokens: BTC has id 3, DFI id 1 and ETH id 10. *)
Definition tokens (symbol : string) : option (list (string * TokenInfo)) :=
  if bool_decide (symbol = "BTC") then Some [("3", mkTokenInfo "BTC" "BTC" "Bitcoin" true false)]
  else if bool_decide (symbol = "DFI") then Some [("1", mkTokenInfo "DFI" "DFI" "Default Defi token" true false)]
  else if bool_decide (symbol = "ETH") then Some [("10", mkTokenInfo "ETH" "ETH" "Ether" true false)]
  else None.

(** A node that holds no vault: an identifier that is not 64 characters long
    is answered with the length message, any other with "not found". *)
Definition emptyNode (id : string) : Async (Vault Z) :=
  if (String.length id =? 64)%nat then inl (RpcApiError (-20) (notFoundMessage id))
  else inl (RpcApiError (-8) (lengthMessage id)).

Definition service : Collaborators Z unit :=
  {| client_loan_getVault := emptyNode;
     client_loan_listVaults := fun _ _ => inr [];
     client_loan_listAuctions := fun _ => inr [];
     deFiDCache_batchTokenInfoBySymbol := fun _ => tokens;
     activePriceMapper_query := fun _ _ => [];
     loanSchemeMapper_get := Indexer.mapper_get (Indexer.loanSchemes Samples.pending);
     defaultLoanSchemeMapper_get := Some "S1";
     parseDisplaySymbol := fun info => ("d" ++ ti_symbol info)%string |}.

(** A 64-character vault id. *)
Definition vault64 : string :=
  "0530ab29a9f09416a014a4219f186f1d5d530e9a270a9f941275b3972b43ebb7".

(** A batch with its loan, and one that carries none. *)
Definition batchFull : VaultLiquidationBatch := mkBatch 0 [Some "2@BTC"] (Some "7@DFI").
Definition batchBare : VaultLiquidationBatch := mkBatch 1 [Some "2@BTC"] None.

(** A batch whose loan is the empty string. *)
Definition batchBlank : VaultLiquidationBatch := mkBatch 2 [Some "2@BTC"] (Some "").

(** An active vault on scheme S1, a vault in liquidation with one batch, and
    a vault on a scheme that is not indexed. *)
Definition vaultActive : Vault Z :=
  VaultActive _ (mkCommon vault64 "S1" "owner1" ACTIVE)
    {| informativeRatio := 150; collateralRatio := 150; collateralValue := 1000;
       loanValue := 500; interestValue := 5;
       collateralAmounts := Some [Some "5@BTC"; Some "7@DFI"];
       loanAmounts := Some [Some "9@ETH"];
       interestAmounts := None |}.

Definition vaultAuction : Vault Z :=
  VaultLiquidation _
    (mkCommon "a1a1ab29a9f09416a014a4219f186f1d5d530e9a270a9f941275b3972b43ebb7"
              "S1" "owner2" IN_LIQUIDATION)
    {| liquidationHeight := 120; liquidationPenalty := 5; batchCount := 1;
       batches := [batchFull] |}.


(** A node that holds [vaultActive] and [vaultAuction]. *)
Definition stocked : Collaborators Z unit :=
  {| client_loan_getVault := fun id =>
       if bool_decide (id = vault64) then inr vaultActive else emptyNode id;
     client_loan_listVaults := fun _ _ => inr [vaultActive; vaultAuction];
     client_loan_listAuctions := fun _ => inr [vaultAuction];
     deFiDCache_batchTokenInfoBySymbol := fun _ => tokens;
     activePriceMapper_query := fun _ _ => [];
     loanSchemeMapper_get := Indexer.mapper_get (Indexer.loanSchemes Samples.pending);
     defaultLoanSchemeMapper_get := Some "S1";
     parseDisplaySymbol := fun info => ("d" ++ ti_symbol info)%string |}.


(** Three items, and what the sample services map them, a batch and the
    sample vaults to. *)
Definition threeItems : list string := ["5@BTC"; "7@DFI"; "9@ETH"].

Definition threeAmounts : list (LoanVaultTokenAmount unit) :=
  Eval vm_compute in
    match mapTokenAmounts service (Some (Some <$> threeItems)) with
    | inr out => out
    | inl _ => []
    end.

Definition fullBatchViews : list (LoanVaultLiquidationBatch unit) :=
  Eval vm_compute in
    match mapLiquidationBatches service [batchFull] with
    | inr views => views
    | inl _ => []
    end.

Definition activeViews : list (LoanVault unit) :=
  Eval vm_compute in
    match mapLoanVault intToString stocked vaultActive with
    | inr view => [view]
    | inl _ => []
    end.

Definition stockedPage : list (Page (LoanVault unit)) :=
  Eval vm_compute in
    match listVaults intToString stocked (mkQuery 50 None) None with
    | inr page => [page]
    | inl _ => []
    end.

Definition stockedAuctions : list (Page (LoanVaultLiquidated unit)) :=
  Eval vm_compute in
    match listAuction stocked (mkQuery 50 None) with
    | inr page => [page]
    | inl _ => []
    end.

End VaultSamples.

(** ** Vocabulary for the statements about the read model *)

Module VaultTerms.

Import Js VaultService.

Section Terms.

Context {BigNumber ActivePrice : Type}.
Variable this : Collaborators BigNumber ActivePrice.

(** The two parts of an item ["<amount>@<symbol>"], as [mapTokenAmounts]
    reads them: the piece before the first [@], and the piece after it as a
    property key. *)
Definition amountOf (item : string) : string :=
  default "" (split "@" item !! 0%nat).

Definition symbolOf (item : string) : string :=
  toKey (split "@" item !! 1%nat).

(** The token objects the cache answers the symbols of [items] with. *)
Definition tokenInfosOf (items : list string)
  : string -> option (list (string * TokenInfo)) :=
  deFiDCache_batchTokenInfoBySymbol _ _ this
    ((fun pair : list string => pair !! 1%nat) <$> (split "@" <$> items)).

(** The token id of an amount parses to no negative number. *)
Definition nonNegativeId (a : LoanVaultTokenAmount ActivePrice) : Prop :=
  match parseInt (toKey (id a)) with
  | NaN => True
  | Num v => 0 <= v
  end.



(** The fields the two shapes of view share. *)
Definition loanSchemeOf (view : LoanVault ActivePrice) : LoanSchemeView :=
  match view with
  | inl active => va_loanScheme _ active
  | inr liquidated => vl_loanScheme _ liquidated
  end.

Definition vaultIdOf (view : LoanVault ActivePrice) : string :=
  match view with
  | inl active => va_vaultId _ active
  | inr liquidated => vl_vaultId _ liquidated
  end.

End Terms.

End VaultTerms.

(** * Properties of the indexer *)

Import Indexer.

Section IndexerLemmas.

Local Open Scope indexer_scope.

Implicit Types (s : Store) (t : Table) (k : string) (e each : Scheme).

Lemma scheme_eta e : mkScheme (id e) (body e) = e.
Proof. by destruct e. Qed.

Lemma mapper_get_Some t k e :
  mapper_get t k = Some e <-> id e = k /\ t !! k = Some (body e).
Proof.
  unfold mapper_get. destruct (t !! k) as [b|] eqn:Hk; simpl; split.
  - intros [= <-]. done.
  - intros [<- [= ->]]. by rewrite scheme_eta.
  - done.
  - intros [_ ?]. done.
Qed.

Lemma mapper_get_None t k : mapper_get t k = None <-> t !! k = None.
Proof. unfold mapper_get. destruct (t !! k); simpl; split; done. Qed.

Lemma scan_ids t : id <$> mapper_scan t = (map_to_list t).*1.
Proof.
  unfold mapper_scan. rewrite <- list_fmap_compose. by apply list_fmap_ext.
Qed.

Lemma elem_of_scan t e : e ∈ mapper_scan t <-> t !! id e = Some (body e).
Proof.
  unfold mapper_scan. rewrite list_elem_of_fmap. split.
  - intros [[k b] [-> Hin]]. simpl. by apply elem_of_map_to_list.
  - intros Hl. exists (id e, body e). split; [by destruct e|].
    by apply elem_of_map_to_list.
Qed.

Lemma scan_NoDup t : NoDup (id <$> mapper_scan t).
Proof. rewrite scan_ids. apply NoDup_fst_map_to_list. Qed.

Lemma scan_length t : length (mapper_scan t) = size t.
Proof. unfold mapper_scan. by rewrite length_fmap, length_map_to_list. Qed.

Lemma fmap_sublist {A B} (f : A -> B) (l1 l2 : list A) :
  l1 `sublist_of` l2 -> f <$> l1 `sublist_of` f <$> l2.
Proof. induction 1; cbn; by constructor. Qed.

Lemma query_sublist n t : mapper_query n t `sublist_of` mapper_scan t.
Proof. apply sublist_take. Qed.

Lemma elem_of_query n t e :
  e ∈ mapper_query n t -> t !! id e = Some (body e).
Proof.
  intros Hin. apply elem_of_scan. by apply (subseteq_take n (mapper_scan t)).
Qed.

Lemma query_NoDup n t : NoDup (id <$> mapper_query n t).
Proof.
  eapply sublist_NoDup; [apply (scan_NoDup t)|].
  apply fmap_sublist, query_sublist.
Qed.

Lemma query_length n t : length (mapper_query n t) = (n `min` size t)%nat.
Proof. unfold mapper_query. by rewrite length_take, scan_length. Qed.

Lemma query_all n t : (size t <= n)%nat -> mapper_query n t = mapper_scan t.
Proof.
  intros. unfold mapper_query. apply take_ge. rewrite scan_length. lia.
Qed.

(** **** The loop of [index] *)

Lemma index_loop block (l : list Scheme) s :
  forOf l (fun each =>
    if due block each then
      loanSchemeMapper_put each ;;;
      deferredLoanSchemeMapper_delete (id each)
    else ret tt) s
  = (foldl promote s (List.filter (due block) l), inr tt).
Proof.
  revert s. induction l as [|e l IH]; intros s; [done|].
  cbn [forOf List.filter]. unfold bind at 1.
  destruct (due block e); cbn.
  - rewrite IH. done.
  - unfold ret. rewrite IH. done.
Qed.

Lemma index_eq block s :
  index block s = (foldl promote s (promoted block s), inr tt).
Proof. unfold index, bind, deferredLoanSchemeMapper_query. apply index_loop. Qed.

Lemma promote_histories (l : list Scheme) s :
  histories (foldl promote s l) = histories s.
Proof. revert s. induction l as [|e l IH]; intros s; [done|]. cbn. by rewrite IH. Qed.

Lemma promote_other (l : list Scheme) s k :
  k ∉ id <$> l ->
  loanSchemes (foldl promote s l) !! k = loanSchemes s !! k /\
  deferredLoanSchemes (foldl promote s l) !! k = deferredLoanSchemes s !! k.
Proof.
  revert s. induction l as [|e l IH]; intros s Hk; [done|].
  rewrite fmap_cons, not_elem_of_cons in Hk. destruct Hk as [Hne Hk].
  cbn [foldl]. destruct (IH (promote s e) Hk) as [-> ->]. cbn.
  unfold mapper_put, mapper_delete.
  by rewrite lookup_insert_ne, lookup_delete_ne.
Qed.

Lemma promote_member (l : list Scheme) s e :
  NoDup (id <$> l) -> e ∈ l ->
  loanSchemes (foldl promote s l) !! id e = Some (body e) /\
  deferredLoanSchemes (foldl promote s l) !! id e = None.
Proof.
  revert s. induction l as [|x l IH]; intros s Hnd Hin; [by apply elem_of_nil in Hin|].
  rewrite fmap_cons, NoDup_cons in Hnd. destruct Hnd as [Hx Hnd].
  cbn [foldl]. apply elem_of_cons in Hin as [->|Hin].
  - destruct (promote_other l (promote s x) (id x) Hx) as [-> ->]. cbn.
    unfold mapper_put, mapper_delete.
    by rewrite lookup_insert_eq, lookup_delete_eq.
  - by apply IH.
Qed.

Lemma promoted_sublist block s :
  promoted block s `sublist_of` mapper_query 100 (deferredLoanSchemes s).
Proof.
  unfold promoted. generalize (mapper_query 100 (deferredLoanSchemes s)).
  induction l as [|x l IH]; cbn; [constructor|].
  destruct (due block x); by constructor.
Qed.

Lemma promoted_NoDup block s : NoDup (id <$> promoted block s).
Proof.
  eapply sublist_NoDup; [apply query_NoDup|apply fmap_sublist, promoted_sublist].
Qed.

Lemma elem_of_promoted block s e :
  e ∈ promoted block s <->
  e ∈ mapper_query 100 (deferredLoanSchemes s) /\ due block e = true.
Proof.
  unfold promoted. rewrite !list_elem_of_In. apply filter_In.
Qed.

(** **** The loop of [invalidate] *)

Lemma forOf_app {A} (xs ys : list A) (f : A -> M unit) s :
  forOf (xs ++ ys) f s =
  match forOf xs f s with
  | (s', inr _) => forOf ys f s'
  | (s', inl err) => (s', inl err)
  end.
Proof.
  revert s. induction xs as [|x xs IH]; intros s; [done|].
  cbn [app forOf]. unfold bind.
  destruct (f x s) as [s1 [err|[]]]; [done|]. apply IH.
Qed.

Lemma history_query_1 (h : HistoryTable) k :
  history_query h k 1 =
  match default [] (h !! k) with
  | [] => []
  | r :: _ => [mkScheme k (rowBody r)]
  end.
Proof. unfold history_query. by destruct (default [] (h !! k)). Qed.

Lemma invalidateTxn_eq txn s :
  invalidateTxn txn s =
  match mapper_get (loanSchemes s) (identifier txn) with
  | None => (s, inl (mkNotFound "index" "LoanScheme" (identifier txn)))
  | Some cur =>
      match history_query (histories s) (identifier txn) 1 with
      | [] => (s, inl (mkNotFound "index" "LoanSchemeHistory" (identifier txn)))
      | prev :: _ =>
          (mkStore (mapper_put (loanSchemes s) prev) (histories s)
                   (mapper_put (deferredLoanSchemes s) cur), inr tt)
      end
  end.
Proof.
  unfold invalidateTxn, getCurrentLoanScheme, getPrevLoanScheme, bind,
    loanSchemeMapper_get, loanSchemeHistoryMapper_query.
  destruct (mapper_get _ _) as [cur|]; [|done]. cbn.
  destruct (history_query _ _ _) as [|prev ?]; done.
Qed.

Lemma history_query_id (h : HistoryTable) k prev l :
  history_query h k 1 = prev :: l -> id prev = k.
Proof.
  rewrite history_query_1. destruct (default [] (h !! k)); [done|].
  by intros [= <- _].
Qed.

(** A turn that throws has written nothing. *)
Lemma invalidateTxn_throw txn s err :
  outcome (invalidateTxn txn) s = inl err ->
  run (invalidateTxn txn) s = s /\
  ((mapper_get (loanSchemes s) (identifier txn) = None /\
    err = mkNotFound "index" "LoanScheme" (identifier txn)) \/
   (is_Some (mapper_get (loanSchemes s) (identifier txn)) /\
    history_query (histories s) (identifier txn) 1 = [] /\
    err = mkNotFound "index" "LoanSchemeHistory" (identifier txn))).
Proof.
  unfold outcome, run. rewrite invalidateTxn_eq.
  destruct (mapper_get _ _) as [cur|] eqn:Hc; cbn.
  - destruct (history_query _ _ _) as [|prev ?] eqn:Hh; cbn; [|done].
    intros [= <-]. split; [done|]. right. eauto.
  - intros [= <-]. split; [done|]. by left.
Qed.

(** A turn that completes keeps the set of schemes with a current record, and
    the history table. *)
Lemma invalidateTxn_ok_missing txn s s' :
  invalidateTxn txn s = (s', inr tt) ->
  ~ missing s (identifier txn) /\ forall k, missing s' k <-> missing s k.
Proof.
  rewrite invalidateTxn_eq. unfold missing.
  destruct (mapper_get _ _) as [cur|] eqn:Hc; [|done].
  destruct (history_query _ _ _) as [|prev ?] eqn:Hh; [done|].
  intros [= <-]. split; [by intros [|]|]. intros k. cbn.
  rewrite !mapper_get_None. unfold mapper_put.
  rewrite (history_query_id _ _ _ _ Hh).
  destruct (decide (identifier txn = k)) as [<-|Hne].
  - rewrite lookup_insert_eq. apply mapper_get_Some in Hc as [_ Hc].
    rewrite Hc, Hh. split; intros [|]; done.
  - by rewrite lookup_insert_ne.
Qed.

Lemma invalidate_cons block txn txns s :
  invalidate block (txn :: txns) s =
  match invalidateTxn txn s with
  | (s', inr _) => invalidate block txns s'
  | (s', inl err) => (s', inl err)
  end.
Proof. done. Qed.

(** [invalidate] over transactions that name distinct schemes, each with a
    current record and a history row. *)
Lemma invalidate_distinct block txns s :
  NoDup (identifier <$> txns) ->
  (forall k, k ∈ identifier <$> txns -> ~ missing s k) ->
  exists s',
    invalidate block txns s = (s', inr tt) /\
    histories s' = histories s /\
    (forall k, k ∉ identifier <$> txns ->
       loanSchemes s' !! k = loanSchemes s !! k /\
       deferredLoanSchemes s' !! k = deferredLoanSchemes s !! k) /\
    (forall k, k ∈ identifier <$> txns ->
       deferredLoanSchemes s' !! k = loanSchemes s !! k /\
       mapper_get (loanSchemes s') k = head (history_query (histories s) k 1)).
Proof.
  revert s. induction txns as [|txn txns IH]; intros s Hnd Hok.
  - exists s. split; [done|]. split; [done|]. split; [done|].
    intros k Hk. by apply elem_of_nil in Hk.
  - rewrite fmap_cons in Hnd, Hok. apply NoDup_cons in Hnd as [Hfresh Hnd].
    rewrite invalidate_cons.
    destruct (invalidateTxn txn s) as [s1 [err|[]]] eqn:Hstep.
    { exfalso. apply (Hok (identifier txn)); [left|].
      destruct (invalidateTxn_throw txn s err) as [_ [[? _]|[_ [? _]]]];
        [by unfold outcome; rewrite Hstep|by left|by right]. }
    destruct (invalidateTxn_ok_missing _ _ _ Hstep) as [_ Hmiss].
    destruct (IH s1 Hnd) as (s' & Hrun & Hh & Hout & Hin).
    { intros k Hk. rewrite Hmiss. apply Hok. by right. }
    rewrite invalidateTxn_eq in Hstep.
    destruct (mapper_get _ _) as [cur|] eqn:Hc; [|done].
    destruct (history_query _ _ _) as [|prev ?] eqn:Hp; [done|].
    injection Hstep as <-. cbn in *.
    pose proof (history_query_id _ _ _ _ Hp) as Hid.
    apply mapper_get_Some in Hc as [Hcid Hc].
    exists s'. split; [done|]. split; [done|]. split.
    + intros k Hk. apply not_elem_of_cons in Hk as [Hne Hk].
      destruct (Hout k Hk) as [-> ->].
      unfold mapper_put. rewrite Hid, Hcid.
      by rewrite !lookup_insert_ne.
    + intros k Hk. apply elem_of_cons in Hk as [->|Hk].
      * destruct (Hout _ Hfresh) as [HL HD]. unfold mapper_get.
        rewrite HL, HD. unfold mapper_put. rewrite Hid, Hcid.
        rewrite !lookup_insert_eq, Hp, Hc. cbn. split; [done|].
        f_equal. rewrite <- Hid. by destruct prev.
      * destruct (Hin k Hk) as [-> ->]. unfold mapper_put. rewrite Hid.
        rewrite lookup_insert_ne; [done|]. intros <-. done.
Qed.

End IndexerLemmas.

(** ** The specification's statements about the indexer *)

Section IndexerClaims.

Implicit Types (s : Store) (k : string) (e : Scheme).

(** C3: [invalidate] throws, and the error reaches its caller, exactly when
    some transaction of the block names a scheme whose current LoanScheme
    record or whose most recent history row is missing. *)
Theorem invalidate_throws_iff_missing block txns s :
  (exists err, outcome (invalidate block txns) s = inl err) <->
  (exists txn, txn ∈ txns /\ missing s (identifier txn)).
Proof.
  revert s. induction txns as [|txn txns IH]; intros s.
  - split; [by intros [err ?]|]. intros (txn & Hin & _). by apply elem_of_nil in Hin.
  - unfold outcome in *. rewrite invalidate_cons.
    destruct (invalidateTxn txn s) as [s1 [err|[]]] eqn:Hstep.
    + split; [intros _|by eauto]. exists txn. split; [left|].
      destruct (invalidateTxn_throw txn s err) as [_ [[? _]|[_ [? _]]]];
        [by unfold outcome; rewrite Hstep|by left|by right].
    + destruct (invalidateTxn_ok_missing _ _ _ Hstep) as [Hnot Hmiss].
      rewrite IH. split; intros (t & Hin & Ht).
      * exists t. split; [by right|by apply Hmiss].
      * apply elem_of_cons in Hin as [->|Hin]; [done|].
        exists t. split; [done|by apply Hmiss].
Qed.

(** C10: when [invalidate] throws at a transaction, both lookups of that
    transaction came before its writes: the store is the one the earlier
    transactions left, with neither table written for the failing one; the
    error names the lookup that found nothing. *)
Theorem invalidate_throw_writes_nothing block txns s err :
  outcome (invalidate block txns) s = inl err ->
  exists earlier txn later,
    txns = (earlier ++ txn :: later)%list /\
    outcome (invalidate block earlier) s = inr tt /\
    let s1 := run (invalidate block earlier) s in
    outcome (invalidateTxn txn) s1 = inl err /\
    run (invalidateTxn txn) s1 = s1 /\
    run (invalidate block txns) s = s1 /\
    (err = mkNotFound "index" "LoanScheme" (identifier txn) \/
     err = mkNotFound "index" "LoanSchemeHistory" (identifier txn)).
Proof.
  revert s. induction txns as [|txn txns IH]; intros s; [done|].
  unfold outcome, run in *. rewrite invalidate_cons.
  destruct (invalidateTxn txn s) as [s1 [err1|[]]] eqn:Hstep; cbn.
  - intros [= ->]. exists [], txn, txns. cbn. rewrite Hstep. cbn.
    destruct (invalidateTxn_throw txn s err) as [Hs Hwhy];
      [by unfold outcome; rewrite Hstep|].
    unfold run in Hs. rewrite Hstep in Hs. cbn in Hs. subst s1.
    repeat split; try done.
    destruct Hwhy as [[_ ->]|(_ & _ & ->)]; eauto.
  - intros Herr. destruct (IH s1 Herr)
      as (earlier & t & later & -> & Hok & Ht & Hsame & Hrun & Hwhy).
    exists (txn :: earlier), t, later. rewrite !invalidate_cons, Hstep.
    done.
Qed.

(** C2, as the code has it: rolling a transaction back re-inserts the
    scheme's current LoanScheme record as its DeferredLoanScheme entry and
    makes the scheme's most recent history row its current LoanScheme
    record. *)
Theorem invalidate_txn_effect block earlier txn s cur prev :
  outcome (invalidate block earlier) s = inr tt ->
  mapper_get (loanSchemes (run (invalidate block earlier) s)) (identifier txn)
    = Some cur ->
  history_query (histories (run (invalidate block earlier) s)) (identifier txn) 1
    = [prev] ->
  let s2 := run (invalidate block (earlier ++ [txn])%list) s in
  outcome (invalidate block (earlier ++ [txn])%list) s = inr tt /\
  mapper_get (deferredLoanSchemes s2) (identifier txn) = Some cur /\
  mapper_get (loanSchemes s2) (identifier txn) = Some prev.
Proof.
  unfold outcome, run, invalidate. rewrite forOf_app.
  destruct (forOf earlier invalidateTxn s) as [s1 [err|[]]]; [done|]. cbn.
  intros _ Hcur Hprev. unfold bind. rewrite invalidateTxn_eq, Hcur, Hprev. cbn.
  pose proof (history_query_id _ _ _ _ Hprev) as Hp.
  apply mapper_get_Some in Hcur as Hc. destruct Hc as [Hc _].
  split; [done|]. split; apply mapper_get_Some; unfold mapper_put.
  - rewrite Hc. split; [done|]. apply lookup_insert_eq.
  - rewrite Hp. split; [done|]. apply lookup_insert_eq.
Qed.

(** What [index] leaves in the two tables, key by key. *)
Lemma index_run block s :
  run (index block) s = foldl promote s (promoted block s).
Proof. unfold run. by rewrite index_eq. Qed.

Lemma promoted_ids block s e k :
  e ∈ mapper_query 100 (deferredLoanSchemes s) ->
  k ∈ id <$> promoted block s -> k = id e -> e ∈ promoted block s.
Proof.
  intros He Hk ->. apply list_elem_of_fmap in Hk as (e' & Hid & He').
  pose proof He' as Hq. apply elem_of_promoted in Hq as [Hq _].
  apply elem_of_query in Hq, He. rewrite <- Hid, He in Hq.
  replace e with e'; [done|]. destruct e, e'; cbn in *. congruence.
Qed.

Lemma index_not_promoted block s k :
  k ∉ id <$> promoted block s ->
  loanSchemes (run (index block) s) !! k = loanSchemes s !! k /\
  deferredLoanSchemes (run (index block) s) !! k = deferredLoanSchemes s !! k.
Proof. rewrite index_run. apply promote_other. Qed.

Lemma index_promoted block s e :
  e ∈ promoted block s ->
  mapper_get (loanSchemes (run (index block) s)) (id e) = Some e /\
  mapper_get (deferredLoanSchemes (run (index block) s)) (id e) = None.
Proof.
  intros He. rewrite index_run.
  destruct (promote_member (promoted block s) s e) as [HL HD];
    [apply promoted_NoDup|done|].
  split; [by apply mapper_get_Some|by apply mapper_get_None].
Qed.

Lemma index_absent block s k :
  deferredLoanSchemes s !! k = None ->
  loanSchemes (run (index block) s) !! k = loanSchemes s !! k /\
  deferredLoanSchemes (run (index block) s) !! k = None.
Proof.
  intros Hk. destruct (index_not_promoted block s k) as [HL HD].
  - intros Hin. apply list_elem_of_fmap in Hin as (e & -> & He).
    apply elem_of_promoted in He as [He _]. apply elem_of_query in He.
    congruence.
  - by rewrite HL, HD.
Qed.

(** C4: a scanned deferred entry with [activateAfterBlock = H] stays deferred,
    and the LoanScheme table keeps what it had for it, at block [H - 1]; at
    block [H] it is written into the LoanScheme table and deleted from the
    deferred table; and it is still so after block [H + 1] has been indexed
    on top. *)
Theorem activation_boundary s e H :
  e ∈ mapper_query 100 (deferredLoanSchemes s) ->
  activateAfterBlock (body e) = H ->
  let before := run (index (mkBlock (H - 1))) s in
  let at_H := run (index (mkBlock H)) s in
  let after := run (index (mkBlock (H + 1))) at_H in
  (mapper_get (deferredLoanSchemes before) (id e) = Some e /\
   mapper_get (loanSchemes before) (id e) = mapper_get (loanSchemes s) (id e)) /\
  (mapper_get (loanSchemes at_H) (id e) = Some e /\
   mapper_get (deferredLoanSchemes at_H) (id e) = None) /\
  (mapper_get (loanSchemes after) (id e) = Some e /\
   mapper_get (deferredLoanSchemes after) (id e) = None).
Proof.
  intros He HH. cbn zeta.
  assert (Hat : mapper_get (loanSchemes (run (index (mkBlock H)) s)) (id e) = Some e /\
                mapper_get (deferredLoanSchemes (run (index (mkBlock H)) s)) (id e) = None).
  { apply index_promoted, elem_of_promoted. split; [done|].
    unfold due. cbn. apply Z.leb_le. lia. }
  split; [|split; [done|]].
  - destruct (index_not_promoted (mkBlock (H - 1)) s (id e)) as [HL HD].
    + intros Hin. pose proof (promoted_ids _ _ _ _ He Hin eq_refl) as Hp.
      apply elem_of_promoted in Hp as [_ Hdue]. unfold due in Hdue. cbn in Hdue.
      apply Z.leb_le in Hdue. lia.
    + unfold mapper_get at 2 3. rewrite HL. split; [|done].
      apply mapper_get_Some. split; [done|]. rewrite HD. by apply elem_of_query in He.
  - destruct Hat as [HL HD]. apply mapper_get_None in HD.
    destruct (index_absent (mkBlock (H + 1)) _ _ HD) as [HL' HD'].
    split; [|by apply mapper_get_None].
    unfold mapper_get. rewrite HL'. exact HL.
Qed.

Lemma filter_all {A} (f : A -> bool) (l : list A) :
  (forall x, x ∈ l -> f x = true) -> List.filter f l = l.
Proof.
  induction l as [|x l IH]; intros Hall; [done|]. cbn.
  rewrite (Hall x) by left. f_equal. apply IH. intros y Hy. apply Hall. by right.
Qed.

Lemma scan_singleton k (b : SchemeBody) :
  mapper_scan {[ k := b ]} = [mkScheme k b].
Proof. unfold mapper_scan. by rewrite map_to_list_singleton. Qed.

(** C5: [index] scans at most 100 deferred entries; with 101 deferred entries
    all due at block [H], exactly 100 are promoted at [H] and one stays
    deferred, untouched, which the next indexed block promotes. *)
Theorem batch_cap s H :
  (length (mapper_query 100 (deferredLoanSchemes s)) <= 100)%nat /\
  (size (deferredLoanSchemes s) = 101%nat ->
   map_Forall (fun _ b => activateAfterBlock b <= H) (deferredLoanSchemes s) ->
   let s1 := run (index (mkBlock H)) s in
   length (promoted (mkBlock H) s) = 100%nat /\
   (forall e, e ∈ promoted (mkBlock H) s ->
      mapper_get (deferredLoanSchemes s) (id e) = Some e /\
      mapper_get (loanSchemes s1) (id e) = Some e /\
      mapper_get (deferredLoanSchemes s1) (id e) = None) /\
   exists last,
     mapper_get (deferredLoanSchemes s) (id last) = Some last /\
     deferredLoanSchemes s1 = {[ id last := body last ]} /\
     loanSchemes s1 !! id last = loanSchemes s !! id last /\
     forall H', H <= H' ->
       let s2 := run (index (mkBlock H')) s1 in
       mapper_get (loanSchemes s2) (id last) = Some last /\
       deferredLoanSchemes s2 = ∅).
Proof.
  split; [rewrite query_length; lia|]. intros Hsize Hdue. cbn zeta.
  set (D := deferredLoanSchemes s) in *.
  assert (Hall : forall block, H <= height block ->
            forall s' e, e ∈ mapper_query 100 (deferredLoanSchemes s') ->
            deferredLoanSchemes s' !! id e = D !! id e -> due block e = true).
  { intros block Hb s' e He Heq. apply elem_of_query in He. rewrite Heq in He.
    apply Hdue in He. cbn in He. unfold due. apply Z.leb_le. lia. }
  assert (HP : promoted (mkBlock H) s = mapper_query 100 D).
  { unfold promoted. apply filter_all. intros e He.
    by apply (Hall (mkBlock H) (Z.le_refl H) s e). }
  assert (Hlen : length (mapper_scan D) = 101%nat) by by rewrite scan_length.
  destruct (drop 100 (mapper_scan D)) as [|last [|? ?]] eqn:Hdrop;
    try (apply (f_equal length) in Hdrop; rewrite length_drop, Hlen in Hdrop;
         cbn in Hdrop; lia).
  assert (Hscan : mapper_scan D = (mapper_query 100 D ++ [last])%list).
  { unfold mapper_query. by rewrite <- Hdrop, take_drop. }
  assert (Hlast : D !! id last = Some (body last)).
  { apply elem_of_scan. rewrite Hscan. apply elem_of_app. right. by left. }
  assert (Hfresh : id last ∉ id <$> promoted (mkBlock H) s).
  { rewrite HP. pose proof (scan_NoDup D) as Hnd.
    rewrite Hscan, fmap_app in Hnd. apply NoDup_app in Hnd as (_ & Hnd & _).
    intros Hin. apply (Hnd _ Hin). by left. }
  destruct (index_not_promoted _ _ _ Hfresh) as [HL1 HD1].
  assert (HDs : deferredLoanSchemes (run (index (mkBlock H)) s)
                = {[ id last := body last ]}).
  { apply map_eq. intros k. destruct (decide (k = id last)) as [->|Hne].
    - rewrite lookup_singleton_eq, HD1. exact Hlast.
    - rewrite lookup_singleton_ne by done.
      destruct (D !! k) as [b|] eqn:Hk.
      + assert (Hin : mkScheme k b ∈ mapper_scan D) by by apply elem_of_scan.
        rewrite Hscan in Hin. apply elem_of_app in Hin as [Hin|Hin].
        * rewrite <- HP in Hin. apply index_promoted in Hin as [_ Hin].
          by apply mapper_get_None in Hin.
        * apply list_elem_of_singleton in Hin. subst last. done.
      + by apply index_absent. }
  split; [rewrite HP, query_length; fold D; lia|]. split.
  - intros e He. destruct (index_promoted _ _ _ He) as [? ?].
    split; [|done]. apply mapper_get_Some. split; [done|].
    apply elem_of_promoted in He as [He _]. by apply elem_of_query in He.
  - exists last. split; [by apply mapper_get_Some|]. split; [done|].
    split; [done|]. intros H' HH'.
    set (s1 := run (index (mkBlock H)) s) in *.
    assert (HP' : promoted (mkBlock H') s1 = [last]).
    { unfold promoted. rewrite HDs, query_all, scan_singleton.
      2:{ rewrite map_size_singleton. lia. }
      rewrite scheme_eta. cbn. unfold due. cbn.
      apply Hdue in Hlast. cbn in Hlast.
      destruct (Z.leb_spec (activateAfterBlock (body last)) H'); [done|lia]. }
    rewrite index_run, HP'. cbn. split.
    + apply mapper_get_Some. split; [done|]. apply lookup_insert_eq.
    + unfold mapper_delete. rewrite HDs. apply delete_singleton_eq.
Qed.

Lemma store_eq s1 s2 :
  loanSchemes s1 = loanSchemes s2 -> histories s1 = histories s2 ->
  deferredLoanSchemes s1 = deferredLoanSchemes s2 -> s1 = s2.
Proof. destruct s1, s2; cbn; congruence. Qed.

Lemma mapper_get_inj (t1 t2 : Table) k :
  mapper_get t1 k = mapper_get t2 k -> t1 !! k = t2 !! k.
Proof.
  unfold mapper_get. destruct (t1 !! k), (t2 !! k); cbn; congruence.
Qed.

(** C1, as the code has it: when the transactions handed to [invalidate] name
    exactly the schemes [index] promoted at the block, each once, and the most
    recent history row of each is its current record from before the block,
    then [index] followed by [invalidate] completes and restores the
    LoanScheme and DeferredLoanScheme tables. *)
Theorem index_invalidate_roundtrip block txns s :
  identifier <$> txns ≡ₚ id <$> promoted block s ->
  Forall (fun e => recorded s (id e)) (promoted block s) ->
  outcome (invalidate block txns) (run (index block) s) = inr tt /\
  run (invalidate block txns) (run (index block) s) = s.
Proof.
  intros Hperm Hrec. rewrite Forall_forall in Hrec.
  assert (Hmem : forall k, k ∈ identifier <$> txns ->
            exists e, e ∈ promoted block s /\ id e = k).
  { intros k Hk. rewrite Hperm in Hk.
    apply list_elem_of_fmap in Hk as (e & -> & He). eauto. }
  assert (Hhist : histories (run (index block) s) = histories s).
  { rewrite index_run. apply promote_histories. }
  destruct (invalidate_distinct block txns (run (index block) s))
    as (s' & Hrun & Hh & Hout & Hin).
  { rewrite Hperm. apply promoted_NoDup. }
  { intros k Hk. destruct (Hmem k Hk) as (e & He & <-).
    destruct (index_promoted _ _ _ He) as [HL _].
    destruct (Hrec e He) as [[cur Hcur] Hhead].
    unfold missing. rewrite HL, Hhist. intros [|Hnil]; [done|].
    rewrite Hnil, Hcur in Hhead. done. }
  split; [unfold outcome; by rewrite Hrun|].
  replace (run (invalidate block txns) (run (index block) s)) with s'
    by (unfold run at 1; by rewrite Hrun).
  apply store_eq.
  - apply map_eq. intros k.
    destruct (decide (k ∈ identifier <$> txns)) as [Hk|Hk].
    + destruct (Hin k Hk) as [_ HL'], (Hmem k Hk) as (e & He & <-).
      apply mapper_get_inj. rewrite HL', Hhist. apply (Hrec e He).
    + destruct (Hout k Hk) as [-> _]. apply index_not_promoted.
      by rewrite <- Hperm.
  - congruence.
  - apply map_eq. intros k.
    destruct (decide (k ∈ identifier <$> txns)) as [Hk|Hk].
    + destruct (Hin k Hk) as [-> _], (Hmem k Hk) as (e & He & <-).
      destruct (index_promoted _ _ _ He) as [HL _].
      apply mapper_get_Some in HL as [_ ->].
      apply elem_of_promoted in He as [He _]. apply elem_of_query in He.
      by rewrite He.
    + destruct (Hout k Hk) as [_ ->]. apply index_not_promoted.
      by rewrite <- Hperm.
Qed.

End IndexerClaims.

(** ** The statements at the sample data *)

Import Samples.

(** At block 10 the deferred update of S1 is promoted; rolling the block back
    with no transaction of this kind leaves it promoted, and rolling it back
    with the transaction of S1 where the history row is not the former
    current record puts that row in: either way the tables are not the ones
    from before the block. *)
Lemma index_invalidate_not_inverse :
  (let s' := run (invalidate block10 []) (run (index block10) pending) in
   ~ (loanSchemes s' = loanSchemes pending /\
      deferredLoanSchemes s' = deferredLoanSchemes pending)) /\
  (let s' := run (invalidate block10 [txS1]) (run (index block10) pendingStale) in
   ~ (loanSchemes s' = loanSchemes pendingStale /\
      deferredLoanSchemes s' = deferredLoanSchemes pendingStale)).
Proof.
  cbn zeta. split.
  - intros [_ HD]. apply (f_equal (fun t : Table => t !! "S1")) in HD.
    vm_compute in HD. discriminate HD.
  - intros [HL _]. apply (f_equal (fun t : Table => t !! "S1")) in HL.
    vm_compute in HL. discriminate HL.
Qed.

Lemma index_invalidate_roundtrip_witness :
  (identifier <$> [txS1] ≡ₚ id <$> promoted block10 pending /\
   Forall (fun e => recorded pending (id e)) (promoted block10 pending)) /\
  outcome (invalidate block10 [txS1]) (run (index block10) pending) = inr tt /\
  run (invalidate block10 [txS1]) (run (index block10) pending) = pending.
Proof.
  assert (H1 : identifier <$> [txS1] ≡ₚ id <$> promoted block10 pending)
    by (vm_compute; reflexivity).
  assert (H2 : Forall (fun e => recorded pending (id e)) (promoted block10 pending))
    by (apply (bool_decide_unpack _); vm_compute; exact I).
  split; [by split|]. exact (index_invalidate_roundtrip block10 [txS1] pending H1 H2).
Defined.

(** Rolling back the transaction of S1 on the activated store: the deferred
    entry becomes the current record, not the history row, and the current
    record becomes the history row, not what it was. *)
Lemma invalidate_txn_not_as_stated :
  let s2 := run (invalidate block10 [txS1]) activated in
  mapper_get (loanSchemes activated) "S1" = Some (mkScheme "S1" bodyNew) /\
  history_query (histories activated) "S1" 1 = [mkScheme "S1" bodyOld] /\
  mapper_get (deferredLoanSchemes s2) "S1" <> Some (mkScheme "S1" bodyOld) /\
  mapper_get (loanSchemes s2) "S1" <> Some (mkScheme "S1" bodyNew).
Proof.
  cbn zeta. split; [by vm_compute|]. split; [by vm_compute|].
  split; vm_compute; discriminate.
Qed.

Lemma invalidate_txn_effect_witness :
  (outcome (invalidate block10 []) activated = inr tt /\
   mapper_get (loanSchemes (run (invalidate block10 []) activated)) "S1"
     = Some (mkScheme "S1" bodyNew) /\
   history_query (histories (run (invalidate block10 []) activated)) "S1" 1
     = [mkScheme "S1" bodyOld]) /\
  outcome (invalidate block10 [txS1]) activated = inr tt /\
  mapper_get (deferredLoanSchemes (run (invalidate block10 [txS1]) activated)) "S1"
    = Some (mkScheme "S1" bodyNew) /\
  mapper_get (loanSchemes (run (invalidate block10 [txS1]) activated)) "S1"
    = Some (mkScheme "S1" bodyOld).
Proof.
  assert (H1 : outcome (invalidate block10 []) activated = inr tt) by reflexivity.
  assert (H2 : mapper_get (loanSchemes (run (invalidate block10 []) activated))
                 (identifier txS1) = Some (mkScheme "S1" bodyNew))
    by (vm_compute; reflexivity).
  assert (H3 : history_query (histories (run (invalidate block10 []) activated))
                 (identifier txS1) 1 = [mkScheme "S1" bodyOld])
    by (vm_compute; reflexivity).
  split; [by repeat split|].
  exact (invalidate_txn_effect block10 [] txS1 activated _ _ H1 H2 H3).
Defined.

Lemma invalidate_throw_writes_nothing_witness :
  outcome (invalidate block10 [txS1; txS2]) unrecorded
    = inl (mkNotFound "index" "LoanSchemeHistory" "S2") /\
  exists earlier txn later,
    [txS1; txS2] = (earlier ++ txn :: later)%list /\
    outcome (invalidate block10 earlier) unrecorded = inr tt /\
    let s1 := run (invalidate block10 earlier) unrecorded in
    outcome (invalidateTxn txn) s1
      = inl (mkNotFound "index" "LoanSchemeHistory" "S2") /\
    run (invalidateTxn txn) s1 = s1 /\
    run (invalidate block10 [txS1; txS2]) unrecorded = s1 /\
    (mkNotFound "index" "LoanSchemeHistory" "S2"
       = mkNotFound "index" "LoanScheme" (identifier txn) \/
     mkNotFound "index" "LoanSchemeHistory" "S2"
       = mkNotFound "index" "LoanSchemeHistory" (identifier txn)).
Proof.
  assert (H1 : outcome (invalidate block10 [txS1; txS2]) unrecorded
               = inl (mkNotFound "index" "LoanSchemeHistory" "S2"))
    by (vm_compute; reflexivity).
  split; [exact H1|].
  exact (invalidate_throw_writes_nothing block10 [txS1; txS2] unrecorded _ H1).
Defined.

Lemma activation_boundary_witness :
  let e := mkScheme "S1" bodyNew in
  (e ∈ mapper_query 100 (deferredLoanSchemes pending) /\
   activateAfterBlock (body e) = 10) /\
  (mapper_get (deferredLoanSchemes (run (index block9) pending)) "S1" = Some e /\
   mapper_get (loanSchemes (run (index block9) pending)) "S1"
     = mapper_get (loanSchemes pending) "S1") /\
  (mapper_get (loanSchemes (run (index block10) pending)) "S1" = Some e /\
   mapper_get (deferredLoanSchemes (run (index block10) pending)) "S1" = None) /\
  (mapper_get (loanSchemes (run (index (mkBlock 11)) (run (index block10) pending))) "S1"
     = Some e /\
   mapper_get (deferredLoanSchemes (run (index (mkBlock 11)) (run (index block10) pending))) "S1"
     = None).
Proof.
  cbn zeta.
  assert (H1 : mkScheme "S1" bodyNew ∈ mapper_query 100 (deferredLoanSchemes pending))
    by (vm_compute; left).
  assert (H2 : activateAfterBlock (body (mkScheme "S1" bodyNew)) = 10) by reflexivity.
  split; [by split|].
  exact (activation_boundary pending (mkScheme "S1" bodyNew) 10 H1 H2).
Defined.

Lemma batch_cap_witness :
  (size (deferredLoanSchemes crowded) = 101%nat /\
   map_Forall (fun _ b => activateAfterBlock b <= 6) (deferredLoanSchemes crowded)) /\
  length (promoted (mkBlock 6) crowded) = 100%nat /\
  exists last,
    mapper_get (deferredLoanSchemes crowded) (id last) = Some last /\
    deferredLoanSchemes (run (index (mkBlock 6)) crowded) = {[ id last := body last ]} /\
    mapper_get (loanSchemes (run (index (mkBlock 6)) crowded)) (id last) = None /\
    mapper_get
      (loanSchemes (run (index (mkBlock 7)) (run (index (mkBlock 6)) crowded)))
      (id last) = Some last.
Proof.
  assert (H1 : size (deferredLoanSchemes crowded) = 101%nat)
    by (vm_compute; reflexivity).
  assert (H2 : map_Forall (fun _ b => activateAfterBlock b <= 6)
                 (deferredLoanSchemes crowded))
    by (apply (bool_decide_unpack _); vm_compute; exact I).
  split; [by split|].
  destruct (proj2 (batch_cap crowded 6) H1 H2) as (Hlen & _ & last & Hl & HD & HL & Hnext).
  split; [exact Hlen|]. exists last. split; [exact Hl|]. split; [exact HD|].
  split.
  - apply mapper_get_None. rewrite HL. reflexivity.
  - apply (Hnext 7). lia.
Defined.

(** * Properties of the read model *)

Module VaultFacts.

Import Js VaultService VaultSamples.

Section Sorting.

Context {A : Type}.
Implicit Types (order : A -> A -> Z) (l : list A).

(** With an order that is never negative the whole array is one ascending
    run. *)
Lemma runRest_nonneg order previous l :
  (forall x y, x ∈ l -> 0 <= order x y) ->
  runRest order false previous l = (l, []).
Proof.
  revert previous. induction l as [|x l IH]; intros previous Hpos; [done|].
  cbn. destruct (Z.ltb_spec (order x previous) 0) as [Hneg|_].
  - assert (0 <= order x previous) by (apply Hpos; left). lia.
  - rewrite IH; [done|]. intros y z Hy. apply Hpos. by right.
Qed.

Lemma countAndMakeRun_nonneg order l :
  (forall x y, x ∈ l -> 0 <= order x y) -> countAndMakeRun order l = (l, []).
Proof.
  intros Hpos. destruct l as [|x [|y l]]; [done..|]. cbn.
  destruct (Z.ltb_spec (order y x) 0) as [Hneg|_].
  - assert (0 <= order y x) by (apply Hpos; right; left). lia.
  - rewrite runRest_nonneg; [done|]. intros z w Hz. apply Hpos. right. by right.
Qed.

Lemma sort_nonneg (comparefn : A -> A -> Number) l :
  (forall x y, x ∈ l -> 0 <= sortCompare comparefn x y) ->
  sort comparefn l = l.
Proof. intros Hpos. unfold sort. by rewrite countAndMakeRun_nonneg. Qed.

End Sorting.

(** The comparator of [mapTokenAmounts] looks at its first argument only. *)
Lemma comparefn_one_sided {P} (a b b' : LoanVaultTokenAmount P) :
  comparefn a b = comparefn a b'.
Proof. reflexivity. Qed.


(** An unknown vault is reported as not found, whatever the identifier. *)
Lemma translate_not_found id code :
  translate id (RpcApiError code (notFoundMessage id))
  = NotFoundException "Unable to find vault".
Proof.
  unfold translate, notFoundMessage. by rewrite bool_decide_eq_true_2.
Qed.

(** What is not a node error becomes a bad request that carries it. *)
Lemma translate_other id err :
  (forall code message, err <> RpcApiError code message) ->
  translate id err = BadRequestException err.
Proof. intros Hno. destruct err; try done. by destruct (Hno code message). Qed.


Lemma substring_zero n s : String.substring n 0 s = "".
Proof. revert n. induction s as [|c s IH]; intros [|n]; cbn; auto. Qed.

Lemma substr_from_short s n : (String.length s <= n)%nat -> substr_from s n = "".
Proof.
  intros Hle. unfold substr_from.
  replace (String.length s - n)%nat with 0%nat by lia. apply substring_zero.
Qed.

(** A cursor that is no longer than a vault id is read with height NaN. *)
Lemma auctionPagination_short size next :
  (String.length next <= 64)%nat ->
  start (auctionPagination (mkQuery size (Some next)))
  = Some (mkStart (substr next 0 64) NaN).
Proof. intros Hle. cbn. by rewrite substr_from_short. Qed.

(** A cursor made of a vault id and a decimal height is read as such. *)
Lemma auctionPagination_cursor :
  auctionPagination (mkQuery 50 (Some (vault64 ++ "1234")%string))
    = mkAuctionPagination (Some (mkStart vault64 (Num 1234))) 30.
Proof. by vm_compute. Qed.

(** With ids that parse to no negative number, NaN included, the sort of
    [mapTokenAmounts] returns the amounts as they were. *)
Lemma sort_comparefn_id {P} (amounts : list (LoanVaultTokenAmount P)) :
  (forall a, a ∈ amounts ->
     match parseInt (toKey (id a)) with NaN => True | Num v => 0 <= v end) ->
  sort comparefn amounts = amounts.
Proof.
  intros Hpos. apply sort_nonneg. intros x y Hx. apply Hpos in Hx.
  unfold sortCompare, comparefn. destruct (parseInt (toKey (id x))); lia.
Qed.

(** C6: for the amounts of the tokens with ids 3, 1 and 10, in that order,
    [mapTokenAmounts] returns the ids in the order 3, 1, 10: the list is not
    sorted ascending by numeric id. *)
Theorem mapTokenAmounts_order :
  exists amounts,
    mapTokenAmounts service (Some [Some "5@BTC"; Some "7@DFI"; Some "9@ETH"])
      = inr amounts /\
    id <$> amounts = [Some "3"; Some "1"; Some "10"] /\
    id <$> amounts <> [Some "1"; Some "3"; Some "10"].
Proof. eexists. split; [vm_compute; reflexivity|]. split; [reflexivity|discriminate]. Qed.

(** C7: the node's answer to the three-character identifier [abc], an
    identifier shorter than 64 characters, is passed on by [get] as a bad
    request, not as not found. *)
Theorem get_short_id_bad_request :
  client_loan_getVault service "abc"
    = inl (RpcApiError (-8) (lengthMessage "abc")) /\
  get intToString service "abc"
    = inl (BadRequestException
             (RpcApiError (-8) "vaultId must be of length 64 (not 3, for 'abc')")) /\
  get intToString service "abc" <> inl (NotFoundException "Unable to find vault").
Proof. split; [reflexivity|]. split; [by vm_compute|]. by vm_compute. Qed.

(** C9: a cursor that is a 64-character vault id with nothing after it is
    read with that id and height NaN, not height 0. *)
Theorem auction_cursor_height_nan :
  auctionPagination (mkQuery 10 (Some vault64))
    = mkAuctionPagination (Some (mkStart vault64 NaN)) 10 /\
  auctionPagination (mkQuery 10 (Some vault64))
    <> mkAuctionPagination (Some (mkStart vault64 (Num 0))) 10.
Proof. split; [by vm_compute|]. by vm_compute. Qed.

Section Batches.

Context {BigNumber ActivePrice : Type}.
Variable this : Collaborators BigNumber ActivePrice.

Lemma promiseAll_throws {A B} (f : A -> Async B) (xs : list A) x :
  x ∈ xs -> (exists err, f x = inl err) -> exists err, promiseAll f xs = inl err.
Proof.
  induction xs as [|y xs IH]; intros Hin Hx; [by apply elem_of_nil in Hin|].
  cbn. destruct (f y) as [err|b] eqn:Hy; cbn; [by eauto|].
  apply elem_of_cons in Hin as [->|Hin].
  - destruct Hx as [err Hx]. congruence.
  - destruct (IH Hin Hx) as [err ->]. cbn. eauto.
Qed.

Lemma promiseAll_returns {A B} (f : A -> Async B) (xs : list A) ys :
  promiseAll f xs = inr ys -> Forall2 (fun x y => f x = inr y) xs ys.
Proof.
  revert ys. induction xs as [|x xs IH]; intros ys; cbn.
  - intros [= <-]. constructor.
  - destruct (f x) as [err|y] eqn:Hx; cbn; [done|].
    destruct (promiseAll f xs) as [err|ys'] eqn:Hxs; cbn; [done|].
    intros [= <-]. constructor; [done|]. by apply IH.
Qed.

(** An array with an undefined element cannot be mapped. *)
Lemma mapTokenAmounts_undefined :
  mapTokenAmounts this (Some [None])
  = inl (TypeError "Cannot read properties of undefined (reading 'split')").
Proof. reflexivity. Qed.

(** One item gives one amount. *)
Lemma mapTokenAmounts_one item amounts :
  mapTokenAmounts this (Some [item]) = inr amounts -> exists a, amounts = [a].
Proof.
  unfold mapTokenAmounts. destruct item as [value|]; cbn; [|done].
  destruct (deFiDCache_batchTokenInfoBySymbol _ _ _ _ _) as [result|];
    cbn -[mapLoanVaultTokenAmount]; [|done].
  destruct (mapLoanVaultTokenAmount _ _ _ _ _) as [err|a]; cbn; [done|].
  intros [= <-]. by exists a.
Qed.

(** The turn of [mapLiquidationBatches] for a batch without loan throws. *)
Lemma bare_batch_turn batch :
  loan batch = None ->
  exists err,
    VaultService.bind (mapTokenAmounts this (Some (collaterals batch)))
      (fun collaterals =>
         VaultService.bind (mapTokenAmounts this (Some [loan batch]))
           (fun loan => inr {| bv_index := index batch;
                               bv_collaterals := collaterals;
                               bv_loan := head loan |}))
    = inl err.
Proof.
  intros ->. destruct (mapTokenAmounts this (Some (collaterals batch))); cbn; eauto.
Qed.

(** C8, as the code has it: for a liquidation batch whose source supplies no
    loan entry the auction mapper throws; it returns no batch view. *)
Theorem bare_batch_throws batches batch :
  batch ∈ batches -> loan batch = None ->
  exists err, mapLiquidationBatches this batches = inl err.
Proof.
  intros Hin Hbare. unfold mapLiquidationBatches.
  destruct batches as [|b batches]; [by apply elem_of_nil in Hin|].
  eapply promiseAll_throws; [exact Hin|]. by apply bare_batch_turn.
Qed.

(** Whenever the mapper returns, every batch view carries a loan amount. *)
Lemma returned_batches_have_loan batches views :
  mapLiquidationBatches this batches = inr views ->
  Forall (fun view => is_Some (bv_loan view)) views.
Proof.
  unfold mapLiquidationBatches. destruct batches as [|b batches].
  { intros [= <-]. constructor. }
  intros Hall. apply promiseAll_returns in Hall.
  induction Hall as [|batch view ? ? Hturn _ IH]; constructor; [|exact IH].
  unfold VaultService.bind in Hturn.
  destruct (mapTokenAmounts this (Some (collaterals batch))) as [|cs]; [done|].
  destruct (mapTokenAmounts this (Some [loan batch])) as [|ls] eqn:Hloan; [done|].
  apply mapTokenAmounts_one in Hloan as [a ->]. injection Hturn as <-. cbn. eauto.
Qed.

End Batches.

(** The batch without loan makes the mapper throw, and so does the one
    whose loan is the empty string: no view with an absent loan field is
    returned. *)
Lemma bare_batch_not_absent :
  mapLiquidationBatches service [batchBare]
    = inl (TypeError "Cannot read properties of undefined (reading 'split')") /\
  ~ (exists views, mapLiquidationBatches service [batchBare] = inr views) /\
  mapLiquidationBatches service [batchBlank]
    = inl (ConflictException "unable to find token").
Proof.
  split; [by vm_compute|]. split; [|by vm_compute].
  intros [views Hviews]. vm_compute in Hviews. discriminate.
Qed.

Lemma bare_batch_throws_witness :
  (batchBare ∈ [batchFull; batchBare] /\ loan batchBare = None) /\
  exists err, mapLiquidationBatches service [batchFull; batchBare] = inl err.
Proof.
  assert (H1 : batchBare ∈ [batchFull; batchBare]) by (right; left).
  assert (H2 : loan batchBare = None) by reflexivity.
  split; [by split|].
  exact (bare_batch_throws service [batchFull; batchBare] batchBare H1 H2).
Defined.

End VaultFacts.

(** * Further properties of the indexer *)

Section IndexerExtras.

Local Open Scope indexer_scope.

Implicit Types (s : Store) (k : string) (e : Scheme).

(** The two tables after [index], key by key. *)
Lemma index_lookup block s k :
  loanSchemes (run (index block) s) !! k =
    (if decide (k ∈ id <$> promoted block s)
     then deferredLoanSchemes s !! k else loanSchemes s !! k) /\
  deferredLoanSchemes (run (index block) s) !! k =
    (if decide (k ∈ id <$> promoted block s)
     then None else deferredLoanSchemes s !! k).
Proof.
  case_decide as Hk.
  - apply list_elem_of_fmap in Hk as (e & -> & He).
    destruct (index_promoted _ _ _ He) as [HL HD].
    apply mapper_get_Some in HL as [_ HL]. apply mapper_get_None in HD.
    apply elem_of_promoted in He as [He _]. apply elem_of_query in He.
    by rewrite HL, HD, He.
  - by apply index_not_promoted.
Qed.

Lemma index_histories block s :
  histories (run (index block) s) = histories s.
Proof. rewrite index_run. apply promote_histories. Qed.

(** With at most 100 deferred entries the scan sees them all: an entry is
    promoted exactly when it is due. *)
Lemma promoted_small block s k :
  (size (deferredLoanSchemes s) <= 100)%nat ->
  k ∈ id <$> promoted block s <->
  exists b, deferredLoanSchemes s !! k = Some b /\
            activateAfterBlock b <= height block.
Proof.
  intros Hsize. rewrite list_elem_of_fmap. split.
  - intros (e & -> & He). apply elem_of_promoted in He as [He Hdue].
    apply elem_of_query in He. exists (body e). split; [done|].
    unfold due in Hdue. by apply Z.leb_le in Hdue.
  - intros (b & Hk & Hdue). exists (mkScheme k b). split; [done|].
    apply elem_of_promoted. split.
    + rewrite query_all by done. by apply elem_of_scan.
    + unfold due. cbn. by apply Z.leb_le.
Qed.

(** X1: [index] completes on every store, never writes the history table,
    and leaves alone every scheme that has no deferred entry. *)
Theorem index_frame block s :
  outcome (index block) s = inr tt /\
  histories (run (index block) s) = histories s /\
  forall k, deferredLoanSchemes s !! k = None ->
    loanSchemes (run (index block) s) !! k = loanSchemes s !! k /\
    deferredLoanSchemes (run (index block) s) !! k = None.
Proof.
  split; [unfold outcome; by rewrite index_eq|].
  split; [apply index_histories|]. intros k. apply index_absent.
Qed.

(** X2: at a block below the activation height of every scanned entry,
    [index] changes nothing. *)
Theorem index_nothing_due block s :
  (forall e, e ∈ mapper_query 100 (deferredLoanSchemes s) ->
     height block < activateAfterBlock (body e)) ->
  run (index block) s = s.
Proof.
  intros Hlate. rewrite index_run.
  replace (promoted block s) with (@nil Scheme); [done|].
  symmetry. unfold promoted.
  induction (mapper_query 100 (deferredLoanSchemes s)) as [|e l IH]; [done|].
  cbn. assert (Hd : due block e = false).
  { unfold due. apply Z.leb_gt, Hlate. left. }
  rewrite Hd. apply IH. intros e' He'. apply Hlate. by right.
Qed.

Lemma promoted_monotone block block' s e :
  height block <= height block' ->
  e ∈ promoted block s -> e ∈ promoted block' s.
Proof.
  intros Hle. rewrite !elem_of_promoted. intros [He Hdue]. split; [done|].
  unfold due in *. apply Z.leb_le in Hdue. apply Z.leb_le. lia.
Qed.

(** X3: a deferred entry that indexing a block promotes is promoted as well
    by indexing any later block in its place. *)
Theorem index_monotone block block' s e :
  height block <= height block' ->
  mapper_get (deferredLoanSchemes s) (id e) = Some e ->
  mapper_get (deferredLoanSchemes (run (index block) s)) (id e) = None ->
  mapper_get (loanSchemes (run (index block') s)) (id e) = Some e /\
  mapper_get (deferredLoanSchemes (run (index block') s)) (id e) = None.
Proof.
  intros Hle Hin Hgone. apply index_promoted, (promoted_monotone block); [done|].
  apply mapper_get_Some in Hin as [_ Hin]. apply mapper_get_None in Hgone.
  destruct (index_lookup block s (id e)) as [_ HD]. rewrite Hgone in HD.
  case_decide as Hk; [|congruence].
  apply list_elem_of_fmap in Hk as (e' & Hid & He').
  replace e with e'; [done|].
  apply elem_of_promoted in He' as [He' _]. apply elem_of_query in He'.
  rewrite <- Hid, Hin in He'. destruct e, e'; cbn in *. congruence.
Qed.

Lemma promote_size (l : list Scheme) s :
  NoDup (id <$> l) ->
  (forall e, e ∈ l -> is_Some (deferredLoanSchemes s !! id e)) ->
  (size (deferredLoanSchemes (foldl promote s l)) + length l
   = size (deferredLoanSchemes s))%nat.
Proof.
  revert s. induction l as [|x l IH]; intros s Hnd Hin; cbn; [lia|].
  rewrite fmap_cons in Hnd. apply NoDup_cons in Hnd as [Hx Hnd].
  assert (IHx : (size (deferredLoanSchemes (foldl promote (promote s x) l))
                 + length l = size (deferredLoanSchemes (promote s x)))%nat).
  { apply IH; [done|]. intros e He. cbn. unfold mapper_delete.
    rewrite lookup_delete_ne.
    - apply Hin. by right.
    - intros Heq. apply Hx. rewrite Heq. apply list_elem_of_fmap. eauto. }
  cbn in IHx. unfold mapper_delete in IHx.
  destruct (Hin x) as [b Hb]; [left|].
  rewrite map_size_delete_Some in IHx by eauto.
  assert (size (deferredLoanSchemes s) <> 0)%nat; [|lia].
  apply map_size_non_empty_iff. intros Hempty. by rewrite Hempty in Hb.
Qed.

Lemma index_deferred_size block s :
  (size (deferredLoanSchemes (run (index block) s)) + length (promoted block s)
   = size (deferredLoanSchemes s))%nat /\
  (length (promoted block s) <= 100)%nat.
Proof.
  split.
  - rewrite index_run. apply promote_size; [apply promoted_NoDup|].
    intros e He. apply elem_of_promoted in He as [He _].
    apply elem_of_query in He. eauto.
  - etransitivity; [apply sublist_length, promoted_sublist|].
    rewrite query_length. lia.
Qed.

(** X4: whatever the deferred table holds, [index] takes at most 100 entries
    out of it and puts none in; and the schemes of the two tables together
    stay the same: none appears, none is lost. *)
Theorem index_size block s :
  (size (deferredLoanSchemes (run (index block) s))
   <= size (deferredLoanSchemes s)
   <= size (deferredLoanSchemes (run (index block) s)) + 100)%nat /\
  dom (loanSchemes (run (index block) s))
    ∪ dom (deferredLoanSchemes (run (index block) s))
  = dom (loanSchemes s) ∪ dom (deferredLoanSchemes s).
Proof.
  split; [destruct (index_deferred_size block s); lia|].
  apply set_eq. intros k. rewrite !elem_of_union, !elem_of_dom.
  destruct (index_lookup block s k) as [-> ->].
  case_decide as Hk; [|done].
  apply list_elem_of_fmap in Hk as (e & -> & He).
  apply elem_of_promoted in He as [He _]. apply elem_of_query in He.
  rewrite He. split; intros _; [right|left]; eauto.
Qed.

(** With at most 100 deferred entries, the tables after [index] in closed
    form. *)
Lemma index_small block s k :
  (size (deferredLoanSchemes s) <= 100)%nat ->
  loanSchemes (run (index block) s) !! k =
    match deferredLoanSchemes s !! k with
    | Some b => if activateAfterBlock b <=? height block
                then Some b else loanSchemes s !! k
    | None => loanSchemes s !! k
    end /\
  deferredLoanSchemes (run (index block) s) !! k =
    match deferredLoanSchemes s !! k with
    | Some b => if activateAfterBlock b <=? height block then None else Some b
    | None => None
    end.
Proof.
  intros Hsize. destruct (index_lookup block s k) as [-> ->].
  pose proof (promoted_small block s k Hsize) as Hiff.
  destruct (deferredLoanSchemes s !! k) as [b|] eqn:Hk.
  - destruct (Z.leb_spec (activateAfterBlock b) (height block)) as [Hdue|Hlate];
      repeat case_decide; try done; exfalso.
    + apply H. apply Hiff. eauto.
    + apply Hiff in H as (b' & [= <-] & ?). lia.
  - repeat case_decide; try done; exfalso.
    by apply Hiff in H as (b' & ? & _).
Qed.

(** X5: with at most 100 deferred entries, indexing a block and then a later
    one leaves the store that indexing the later one alone leaves; in
    particular indexing the same block twice is indexing it once. *)
Theorem index_compose block block' s :
  (size (deferredLoanSchemes s) <= 100)%nat ->
  height block <= height block' ->
  run (index block') (run (index block) s) = run (index block') s.
Proof.
  intros Hsize Hle.
  assert (Hsize1 : (size (deferredLoanSchemes (run (index block) s)) <= 100)%nat).
  { destruct (index_deferred_size block s) as [Heq _]. lia. }
  apply store_eq.
  - apply map_eq. intros k.
    destruct (index_small block' _ k Hsize1) as [-> _].
    destruct (index_small block s k Hsize) as [-> ->].
    destruct (index_small block' s k Hsize) as [-> _].
    destruct (deferredLoanSchemes s !! k) as [b|]; [|done].
    destruct (Z.leb_spec (activateAfterBlock b) (height block));
      destruct (Z.leb_spec (activateAfterBlock b) (height block')); try done; lia.
  - by rewrite !index_histories.
  - apply map_eq. intros k.
    destruct (index_small block' _ k Hsize1) as [_ ->].
    destruct (index_small block s k Hsize) as [_ ->].
    destruct (index_small block' s k Hsize) as [_ ->].
    destruct (deferredLoanSchemes s !! k) as [b|]; [|done].
    destruct (Z.leb_spec (activateAfterBlock b) (height block));
      destruct (Z.leb_spec (activateAfterBlock b) (height block')); try done; lia.
Qed.

(** **** More on [invalidate] *)

Lemma invalidateTxn_frame txn s k :
  histories (run (invalidateTxn txn) s) = histories s /\
  (k <> identifier txn ->
   loanSchemes (run (invalidateTxn txn) s) !! k = loanSchemes s !! k /\
   deferredLoanSchemes (run (invalidateTxn txn) s) !! k
     = deferredLoanSchemes s !! k) /\
  (is_Some (loanSchemes s !! k) ->
   is_Some (loanSchemes (run (invalidateTxn txn) s) !! k)) /\
  (is_Some (deferredLoanSchemes s !! k) ->
   is_Some (deferredLoanSchemes (run (invalidateTxn txn) s) !! k)).
Proof.
  unfold run. rewrite invalidateTxn_eq.
  destruct (mapper_get _ _) as [cur|] eqn:Hc; [|done].
  destruct (history_query _ _ _) as [|prev ?] eqn:Hp; [done|]. cbn.
  apply mapper_get_Some in Hc as [Hc _].
  pose proof (history_query_id _ _ _ _ Hp) as Hid.
  unfold mapper_put. rewrite Hc, Hid. split; [done|]. split; [|split].
  - intros Hne. by rewrite !lookup_insert_ne.
  - intros Hk. rewrite lookup_insert. case_decide; eauto.
  - intros Hk. rewrite lookup_insert. case_decide; eauto.
Qed.

Lemma invalidate_run_cons block txn txns s :
  run (invalidate block (txn :: txns)) s =
  match outcome (invalidateTxn txn) s with
  | inr _ => run (invalidate block txns) (run (invalidateTxn txn) s)
  | inl _ => run (invalidateTxn txn) s
  end.
Proof.
  unfold run, outcome. rewrite invalidate_cons.
  by destruct (invalidateTxn txn s) as [s1 [err|[]]].
Qed.

Lemma invalidate_untouched block txns s :
  let s' := run (invalidate block txns) s in
  histories s' = histories s /\
  (forall k, k ∉ identifier <$> txns ->
     loanSchemes s' !! k = loanSchemes s !! k /\
     deferredLoanSchemes s' !! k = deferredLoanSchemes s !! k) /\
  dom (loanSchemes s) ⊆ dom (loanSchemes s') /\
  dom (deferredLoanSchemes s) ⊆ dom (deferredLoanSchemes s').
Proof.
  cbn zeta. revert s. induction txns as [|txn txns IH]; intros s.
  - cbn. repeat split; done.
  - rewrite invalidate_run_cons.
    assert (Hstep : forall k, _) by exact (invalidateTxn_frame txn s).
    destruct (outcome (invalidateTxn txn) s) as [err|[]].
    + destruct (Hstep "") as [Hh _]. split; [done|]. split; [|split].
      * intros k Hk. apply not_elem_of_cons in Hk as [Hne _].
        by apply (Hstep k).
      * intros k. rewrite !elem_of_dom. apply (Hstep k).
      * intros k. rewrite !elem_of_dom. apply (Hstep k).
    + destruct (IH (run (invalidateTxn txn) s)) as (Hh & Hout & HdL & HdD).
      destruct (Hstep "") as [Hh1 _]. split; [congruence|]. split; [|split].
      * intros k Hk. apply not_elem_of_cons in Hk as [Hne Hk].
        destruct (Hout k Hk) as [-> ->]. by apply (Hstep k).
      * etransitivity; [|exact HdL]. intros k. rewrite !elem_of_dom. apply (Hstep k).
      * etransitivity; [|exact HdD]. intros k. rewrite !elem_of_dom. apply (Hstep k).
Qed.

(** X6: whether it completes or throws, [invalidate] never writes the history
    table, leaves alone every scheme no transaction names, and removes no
    record from either table. *)
Theorem invalidate_frame block txns s :
  let s' := run (invalidate block txns) s in
  histories s' = histories s /\
  (forall k, k ∉ identifier <$> txns ->
     loanSchemes s' !! k = loanSchemes s !! k /\
     deferredLoanSchemes s' !! k = deferredLoanSchemes s !! k) /\
  dom (loanSchemes s) ⊆ dom (loanSchemes s') /\
  dom (deferredLoanSchemes s) ⊆ dom (deferredLoanSchemes s').
Proof. apply invalidate_untouched. Qed.

(** X7: the error [invalidate] throws is that of the first transaction whose
    scheme misses a record, and a missing current record is reported before a
    missing history row. *)
Theorem invalidate_first_missing block earlier txn later s :
  (forall t, t ∈ earlier -> ~ missing s (identifier t)) ->
  missing s (identifier txn) ->
  outcome (invalidate block (earlier ++ txn :: later)%list) s =
  inl (mkNotFound "index"
         (if decide (mapper_get (loanSchemes s) (identifier txn) = None)
          then "LoanScheme" else "LoanSchemeHistory")
         (identifier txn)).
Proof.
  revert s. induction earlier as [|t earlier IH]; intros s Hok Hmiss.
  - cbn [app]. unfold outcome. rewrite invalidate_cons, invalidateTxn_eq.
    destruct Hmiss as [Hc|Hh].
    + rewrite Hc. by rewrite decide_True.
    + destruct (mapper_get _ _) as [cur|] eqn:Hc.
      * rewrite Hh. by rewrite decide_False.
      * by rewrite decide_True.
  - cbn [app]. unfold outcome in *. rewrite invalidate_cons.
    destruct (invalidateTxn t s) as [s1 [err|[]]] eqn:Hstep.
    + exfalso. apply (Hok t); [left|].
      destruct (invalidateTxn_throw t s err) as [_ [[? _]|[_ [? _]]]];
        [by unfold outcome; rewrite Hstep|by left|by right].
    + destruct (invalidateTxn_ok_missing _ _ _ Hstep) as [_ Heq].
      rewrite IH.
      * assert (Hsame : mapper_get (loanSchemes s1) (identifier txn) = None <->
                        mapper_get (loanSchemes s) (identifier txn) = None).
        { rewrite invalidateTxn_eq in Hstep.
          destruct (mapper_get (loanSchemes s) (identifier t)) as [cur|] eqn:Hc;
            [|done].
          destruct (history_query _ _ _) as [|prev ?] eqn:Hp; [done|].
          injection Hstep as <-. cbn. rewrite !mapper_get_None.
          unfold mapper_put. rewrite (history_query_id _ _ _ _ Hp).
          apply mapper_get_Some in Hc as [_ Hc].
          rewrite lookup_insert. case_decide as Heq'; [|done].
          rewrite <- Heq', Hc. done. }
        repeat case_decide; try done; tauto.
      * intros t' Ht'. rewrite Heq. apply Hok. by right.
      * by apply Heq.
Qed.

Lemma invalidate_sets_history_id block txns s k :
  outcome (invalidate block txns) s = inr tt ->
  k ∈ identifier <$> txns ->
  mapper_get (loanSchemes (run (invalidate block txns) s)) k
  = head (history_query (histories s) k 1) /\
  is_Some (head (history_query (histories s) k 1)).
Proof.
  revert s. induction txns as [|t txns IH]; intros s Hok Hin;
    [by apply elem_of_nil in Hin|].
  assert (Hrun : run (invalidate block (t :: txns)) s
                 = (invalidate block (t :: txns) s).1) by done.
  rewrite Hrun. clear Hrun.
  unfold outcome in *. rewrite invalidate_cons in Hok. rewrite invalidate_cons.
  destruct (invalidateTxn t s) as [s1 [err|[]]] eqn:Hstep; [done|].
  change ((invalidate block txns s1).1) with (run (invalidate block txns) s1).
  change ((invalidate block txns s1).2) with (outcome (invalidate block txns) s1) in Hok.
  assert (Hh : histories s1 = histories s).
  { destruct (invalidateTxn_frame t s "") as [Hh _]. unfold run in Hh.
    by rewrite Hstep in Hh. }
  destruct (decide (k ∈ identifier <$> txns)) as [Hlater|Hfresh].
  - rewrite <- Hh. by apply IH.
  - rewrite fmap_cons in Hin. apply elem_of_cons in Hin as [->|?]; [|done].
    destruct (invalidate_untouched block txns s1) as (_ & Hout & _).
    destruct (Hout _ Hfresh) as [HL _].
    unfold mapper_get at 1. rewrite HL.
    rewrite invalidateTxn_eq in Hstep.
    destruct (mapper_get (loanSchemes s) (identifier t)) as [cur|]; [|done].
    destruct (history_query _ _ _) as [|prev ?] eqn:Hp; [done|].
    injection Hstep as <-. cbn. unfold mapper_put.
    rewrite (history_query_id _ _ _ _ Hp), lookup_insert_eq. cbn.
    split; [|by eauto]. f_equal. pose proof (history_query_id _ _ _ _ Hp) as <-.
    by destruct prev.
Qed.

(** X8: when [invalidate] completes, the current record of every scheme a
    transaction names is the scheme's most recent history row (also when a
    scheme is named more than once). *)
Theorem invalidate_sets_history block txns s txn :
  outcome (invalidate block txns) s = inr tt ->
  txn ∈ txns ->
  mapper_get (loanSchemes (run (invalidate block txns) s)) (identifier txn)
  = head (history_query (histories s) (identifier txn) 1) /\
  is_Some (head (history_query (histories s) (identifier txn) 1)).
Proof.
  intros Hok Hin. apply invalidate_sets_history_id; [done|].
  apply list_elem_of_fmap. eauto.
Qed.

(** X9: rolling the same transaction back twice is not rolling it back once:
    the second turn reads the history row the first one made current and
    puts it into the deferred table too. *)
Theorem invalidate_replay block txn s cur prev :
  mapper_get (loanSchemes s) (identifier txn) = Some cur ->
  history_query (histories s) (identifier txn) 1 = [prev] ->
  let once := run (invalidate block [txn]) s in
  let twice := run (invalidate block [txn; txn]) s in
  outcome (invalidate block [txn; txn]) s = inr tt /\
  mapper_get (deferredLoanSchemes once) (identifier txn) = Some cur /\
  mapper_get (deferredLoanSchemes twice) (identifier txn) = Some prev /\
  mapper_get (loanSchemes twice) (identifier txn) = Some prev.
Proof.
  intros Hcur Hprev. cbn zeta.
  pose proof (history_query_id _ _ _ _ Hprev) as Hp.
  apply mapper_get_Some in Hcur as Hc. destruct Hc as [Hc _].
  assert (Hstep : invalidateTxn txn s =
            (mkStore (mapper_put (loanSchemes s) prev) (histories s)
                     (mapper_put (deferredLoanSchemes s) cur), inr tt)).
  { by rewrite invalidateTxn_eq, Hcur, Hprev. }
  assert (Hcur2 : mapper_get (mapper_put (loanSchemes s) prev) (identifier txn)
                  = Some prev).
  { apply mapper_get_Some. split; [done|]. unfold mapper_put.
    rewrite Hp. apply lookup_insert_eq. }
  assert (Hstep2 : invalidateTxn txn
            (mkStore (mapper_put (loanSchemes s) prev) (histories s)
                     (mapper_put (deferredLoanSchemes s) cur)) =
            (mkStore (mapper_put (mapper_put (loanSchemes s) prev) prev)
                     (histories s)
                     (mapper_put (mapper_put (deferredLoanSchemes s) cur) prev),
             inr tt)).
  { rewrite invalidateTxn_eq. cbn [loanSchemes histories deferredLoanSchemes].
    by rewrite Hcur2, Hprev. }
  unfold outcome, run.
  rewrite (invalidate_cons block txn [txn]), (invalidate_cons block txn []), Hstep.
  rewrite (invalidate_cons block txn []), Hstep2. cbn.
  split; [done|]. split; [|split]; apply mapper_get_Some; unfold mapper_put.
  - rewrite Hc. split; [done|]. apply lookup_insert_eq.
  - rewrite Hp. split; [done|]. apply lookup_insert_eq.
  - rewrite Hp. split; [done|]. apply lookup_insert_eq.
Qed.

(** X22: when the transactions name distinct schemes, each with a current
    record and a history row, [invalidate] completes, and the deferred entry
    of every named scheme is then the record that was current before the
    rollback. *)
Theorem invalidate_distinct_deferred block txns s :
  NoDup (identifier <$> txns) ->
  (forall txn, txn ∈ txns -> ~ missing s (identifier txn)) ->
  outcome (invalidate block txns) s = inr tt /\
  forall txn, txn ∈ txns ->
    mapper_get (deferredLoanSchemes (run (invalidate block txns) s))
      (identifier txn)
    = mapper_get (loanSchemes s) (identifier txn).
Proof.
  intros Hnd Hok.
  destruct (invalidate_distinct block txns s Hnd) as (s' & Hrun & _ & _ & Hin).
  { intros k Hk. apply list_elem_of_fmap in Hk as (txn & -> & Htxn).
    by apply Hok. }
  unfold outcome, run. rewrite Hrun. split; [done|]. intros txn Htxn. cbn.
  destruct (Hin (identifier txn)) as [HD _].
  { apply list_elem_of_fmap. eauto. }
  unfold mapper_get. by rewrite HD.
Qed.

End IndexerExtras.

Lemma index_nothing_due_witness :
  (forall e, e ∈ mapper_query 100 (deferredLoanSchemes pending) ->
     height block9 < activateAfterBlock (body e)) /\
  run (index block9) pending = pending.
Proof.
  assert (H1 : forall e, e ∈ mapper_query 100 (deferredLoanSchemes pending) ->
                 height block9 < activateAfterBlock (body e)).
  { intros e He. vm_compute in He. apply list_elem_of_singleton in He as ->.
    cbn. lia. }
  split; [exact H1|]. exact (index_nothing_due block9 pending H1).
Defined.

Lemma index_monotone_witness :
  (height block10 <= height (mkBlock 11) /\
   mapper_get (deferredLoanSchemes pending) "S1" = Some (mkScheme "S1" bodyNew) /\
   mapper_get (deferredLoanSchemes (run (index block10) pending)) "S1" = None) /\
  mapper_get (loanSchemes (run (index (mkBlock 11)) pending)) "S1"
    = Some (mkScheme "S1" bodyNew) /\
  mapper_get (deferredLoanSchemes (run (index (mkBlock 11)) pending)) "S1" = None.
Proof.
  assert (H1 : height block10 <= height (mkBlock 11)) by (cbn; lia).
  assert (H2 : mapper_get (deferredLoanSchemes pending) (id (mkScheme "S1" bodyNew))
               = Some (mkScheme "S1" bodyNew)) by (vm_compute; reflexivity).
  assert (H3 : mapper_get (deferredLoanSchemes (run (index block10) pending))
                 (id (mkScheme "S1" bodyNew)) = None) by (vm_compute; reflexivity).
  split; [by repeat split|].
  exact (index_monotone block10 (mkBlock 11) pending _ H1 H2 H3).
Defined.

Lemma index_compose_witness :
  ((size (deferredLoanSchemes pending) <= 100)%nat /\
   height block9 <= height block10) /\
  run (index block10) (run (index block9) pending) = run (index block10) pending.
Proof.
  assert (H1 : (size (deferredLoanSchemes pending) <= 100)%nat)
    by (vm_compute; lia).
  assert (H2 : height block9 <= height block10) by (cbn; lia).
  split; [by split|]. exact (index_compose block9 block10 pending H1 H2).
Defined.

Lemma invalidate_distinct_deferred_witness :
  (NoDup (identifier <$> [txS1]) /\
   (forall txn, txn ∈ [txS1] -> ~ missing activated (identifier txn))) /\
  outcome (invalidate block10 [txS1]) activated = inr tt /\
  mapper_get (deferredLoanSchemes (run (invalidate block10 [txS1]) activated)) "S1"
  = Some (mkScheme "S1" bodyNew).
Proof.
  assert (H1 : NoDup (identifier <$> [txS1])).
  { apply NoDup_singleton. }
  assert (H2 : forall txn, txn ∈ [txS1] -> ~ missing activated (identifier txn)).
  { intros t Ht. apply list_elem_of_singleton in Ht as ->.
    intros [H|H]; vm_compute in H; discriminate H. }
  split; [by split|].
  destruct (invalidate_distinct_deferred block10 [txS1] activated H1 H2)
    as [Hok Hall].
  split; [exact Hok|].
  assert (H3 : txS1 ∈ [txS1]) by left.
  etransitivity; [exact (Hall txS1 H3)|]. vm_compute. reflexivity.
Defined.

Lemma invalidate_first_missing_witness :
  ((forall t, t ∈ [txS1] -> ~ missing unrecorded (identifier t)) /\
   missing unrecorded (identifier txS2)) /\
  outcome (invalidate block10 ([txS1] ++ txS2 :: [])%list) unrecorded
  = inl (mkNotFound "index" "LoanSchemeHistory" "S2").
Proof.
  assert (H1 : forall t, t ∈ [txS1] -> ~ missing unrecorded (identifier t)).
  { intros t Ht. apply list_elem_of_singleton in Ht as ->.
    intros [H|H]; vm_compute in H; discriminate H. }
  assert (H2 : missing unrecorded (identifier txS2)) by (right; reflexivity).
  split; [by split|].
  exact (invalidate_first_missing block10 [txS1] txS2 [] unrecorded H1 H2).
Defined.

Lemma invalidate_sets_history_witness :
  (outcome (invalidate block10 [txS1]) activated = inr tt /\ txS1 ∈ [txS1]) /\
  mapper_get (loanSchemes (run (invalidate block10 [txS1]) activated)) "S1"
  = Some (mkScheme "S1" bodyOld).
Proof.
  assert (H1 : outcome (invalidate block10 [txS1]) activated = inr tt)
    by (vm_compute; reflexivity).
  assert (H2 : txS1 ∈ [txS1]) by left.
  split; [by split|].
  exact (proj1 (invalidate_sets_history block10 [txS1] activated txS1 H1 H2)).
Defined.

Lemma invalidate_replay_witness :
  (mapper_get (loanSchemes activated) (identifier txS1)
     = Some (mkScheme "S1" bodyNew) /\
   history_query (histories activated) (identifier txS1) 1
     = [mkScheme "S1" bodyOld]) /\
  outcome (invalidate block10 [txS1; txS1]) activated = inr tt /\
  mapper_get (deferredLoanSchemes (run (invalidate block10 [txS1]) activated)) "S1"
    = Some (mkScheme "S1" bodyNew) /\
  mapper_get (deferredLoanSchemes (run (invalidate block10 [txS1; txS1]) activated)) "S1"
    = Some (mkScheme "S1" bodyOld) /\
  mapper_get (loanSchemes (run (invalidate block10 [txS1; txS1]) activated)) "S1"
    = Some (mkScheme "S1" bodyOld).
Proof.
  assert (H1 : mapper_get (loanSchemes activated) (identifier txS1)
               = Some (mkScheme "S1" bodyNew)) by (vm_compute; reflexivity).
  assert (H2 : history_query (histories activated) (identifier txS1) 1
               = [mkScheme "S1" bodyOld]) by (vm_compute; reflexivity).
  split; [by split|].
  exact (invalidate_replay block10 txS1 activated _ _ H1 H2).
Defined.

(** * Further properties of the read model *)

Module VaultMore.

Import Js VaultService VaultSamples VaultTerms VaultFacts.

Section SortPermutation.

Context {A : Type}.
Implicit Types (order : A -> A -> Z) (l : list A).

Lemma runRest_split order descending previous l run tail :
  runRest order descending previous l = (run, tail) -> l = (run ++ tail)%list.
Proof.
  revert previous run tail. induction l as [|x l IH]; intros previous run tail; cbn.
  - by intros [= <- <-].
  - destruct (if descending then _ else _); [by intros [= <- <-]|].
    destruct (runRest order descending x l) as [run' tail'] eqn:Hrest.
    intros [= <- <-]. cbn. f_equal. by eapply IH.
Qed.

Lemma countAndMakeRun_perm order l run tail :
  countAndMakeRun order l = (run, tail) -> (run ++ tail)%list ≡ₚ l.
Proof.
  destruct l as [|x [|y l]]; unfold countAndMakeRun.
  - by intros [= <- <-].
  - by intros [= <- <-].
  - destruct (runRest order _ y l) as [run' tail'] eqn:Hrest.
    apply runRest_split in Hrest as ->. intros [= <- <-].
    destruct (order y x <? 0); [|done].
    apply (Permutation_app_tail tail' (l := rev (x :: y :: run'))
             (l' := x :: y :: run')), Permutation_sym, Permutation_rev.
Qed.

Lemma binaryInsert_perm order sorted pivot :
  binaryInsert order sorted pivot ≡ₚ pivot :: sorted.
Proof.
  unfold binaryInsert. rewrite <- Permutation_middle. by rewrite take_drop.
Qed.

Lemma foldl_binaryInsert_perm order run tail :
  foldl (binaryInsert order) run tail ≡ₚ (run ++ tail)%list.
Proof.
  revert run. induction tail as [|x tail IH]; intros run; cbn [foldl].
  - by rewrite app_nil_r.
  - rewrite IH, binaryInsert_perm. cbn [app]. apply Permutation_middle.
Qed.

(** Whatever the comparator answers, the sort returns the elements it was
    given. *)
Lemma sort_perm (comparefn : A -> A -> Number) l : sort comparefn l ≡ₚ l.
Proof.
  unfold sort.
  destruct (countAndMakeRun (sortCompare comparefn) l) as [run tail] eqn:Hrun.
  rewrite foldl_binaryInsert_perm. by eapply countAndMakeRun_perm.
Qed.

End SortPermutation.

Section PromiseAll.

Context {A B : Type}.
Implicit Types (f : A -> Async B) (xs : list A).

Lemma promiseAll_error f xs err :
  promiseAll f xs = inl err -> exists x, x ∈ xs /\ f x = inl err.
Proof.
  induction xs as [|x xs IH]; cbn; [done|].
  destruct (f x) as [e|y] eqn:Hx; cbn.
  - intros [= ->]. exists x. split; [left|done].
  - destruct (promiseAll f xs) as [e|ys]; cbn; [|done].
    intros [= ->]. destruct IH as (x' & Hin & Hx'); [done|].
    exists x'. split; [by right|done].
Qed.

Lemma promiseAll_all f xs :
  (forall x, x ∈ xs -> exists y, f x = inr y) ->
  exists ys, promiseAll f xs = inr ys.
Proof.
  induction xs as [|x xs IH]; intros Hall; cbn; [by eauto|].
  destruct (Hall x) as [y ->]; [left|]. cbn.
  destruct IH as [ys ->]; [|cbn; eauto].
  intros x' Hx'. apply Hall. by right.
Qed.

Lemma promiseAll_fmap_pure (g : A -> B) xs :
  promiseAll (fun x => inr (g x)) xs = inr (g <$> xs).
Proof. induction xs as [|x xs IH]; cbn; [done|]. by rewrite IH. Qed.

End PromiseAll.

Lemma promiseAll_defined {B} (g : string -> B) (err : Exn) (strs : list string) :
  promiseAll (fun value : option string =>
                match value with
                | Some value => inr (g value)
                | None => inl err
                end) (Some <$> strs)
  = inr (g <$> strs).
Proof. induction strs as [|x strs IH]; cbn; [done|]. by rewrite IH. Qed.

(** **** Numbers written and read back *)













Lemma clamp_min (size : Z) : (if 30 <? size then 30 else size) = Z.min size 30.
Proof. destruct (Z.ltb_spec 30 size); lia. Qed.


Section Mapping.

Context {BigNumber ActivePrice : Type}.
Variable toFixed : BigNumber -> string.
Variable this : Collaborators BigNumber ActivePrice.

Implicit Types (items : list string) (out : list (LoanVaultTokenAmount ActivePrice)).

(** What [mapTokenAmounts] returns: the sorted list of one amount per item,
    each built from the item's amount and the first entry of the token
    object of its symbol. *)
Lemma mapTokenAmounts_spec items out :
  mapTokenAmounts this (Some (Some <$> items)) = inr out ->
  exists mapped,
    out = sort comparefn mapped /\
    Forall2 (fun item a =>
               amount a = amountOf item /\
               exists tokenId info rest,
                 tokenInfosOf this items (symbolOf item)
                   = Some ((tokenId, info) :: rest) /\
                 id a = Some tokenId /\ symbol _ a = ti_symbol info /\
                 activePrice a
                   = head (activePriceMapper_query _ _ this
                             (symbolOf item ++ "-USD") 1))
            items mapped.
Proof.
  destruct items as [|item0 items'].
  { intros [= <-]. exists []. split; [done|constructor]. }
  set (items := item0 :: items'). unfold mapTokenAmounts.
  change (Some <$> items) with (Some item0 :: (Some <$> items')).
  cbv beta iota.
  change (Some item0 :: (Some <$> items')) with (Some <$> items).
  rewrite promiseAll_defined. unfold VaultService.bind.
  fold (tokenInfosOf this items).
  destruct (promiseAll _ (split "@" <$> items)) as [err|mapped] eqn:Hall;
    [intros [=]|].
  intros [= <-]. exists mapped. split; [done|].
  apply promiseAll_returns in Hall. apply Forall2_fmap_l in Hall.
  eapply Forall2_impl; [exact Hall|]. intros item a Hturn.
  unfold compose in Hturn. cbn beta in Hturn. unfold symbolOf, amountOf.
  destruct (tokenInfosOf this items (toKey (split "@" item !! 1%nat)))
    as [result|]; [|done].
  destruct result as [|[tokenId info] rest]; cbn in Hturn; [done|].
  injection Hturn as <-. cbn. split; [done|]. eauto 10.
Qed.

Lemma Forall2_fmap_eq {X Y Z'} (f : X -> Z') (g : Y -> Z') (xs : list X) (ys : list Y) :
  Forall2 (fun x y => g y = f x) xs ys -> g <$> ys = f <$> xs.
Proof. induction 1 as [|x y xs ys Hxy _ IH]; cbn; [done|]. by rewrite Hxy, IH. Qed.

(** X10: [mapTokenAmounts] returns one amount per item and loses or invents
    none, whatever its sort does: the amounts returned are those of the
    items, up to order. *)
Theorem mapTokenAmounts_amounts items out :
  mapTokenAmounts this (Some (Some <$> items)) = inr out ->
  amount <$> out ≡ₚ amountOf <$> items /\ length out = length items.
Proof.
  intros Hout. apply mapTokenAmounts_spec in Hout as (mapped & -> & Hall).
  assert (Heq : amount <$> mapped = amountOf <$> items).
  { apply Forall2_fmap_eq. eapply Forall2_impl; [exact Hall|].
    by intros item a [? _]. }
  split.
  - rewrite <- Heq. apply fmap_Permutation, sort_perm.
  - rewrite (Permutation_length (sort_perm comparefn mapped)).
    by rewrite <- (length_fmap amount), Heq, length_fmap.
Qed.

(** X11: when the token ids returned parse to no negative number, the
    amounts come back in the order of the items, not in the order of their
    ids. *)
Theorem mapTokenAmounts_input_order items out :
  mapTokenAmounts this (Some (Some <$> items)) = inr out ->
  Forall (nonNegativeId (ActivePrice := ActivePrice)) out ->
  amount <$> out = amountOf <$> items.
Proof.
  intros Hout Hpos. apply mapTokenAmounts_spec in Hout as (mapped & -> & Hall).
  rewrite sort_comparefn_id.
  - apply Forall2_fmap_eq. eapply Forall2_impl; [exact Hall|].
    by intros item a [? _].
  - intros a Ha. rewrite Forall_forall in Hpos. apply Hpos.
    by rewrite (sort_perm comparefn mapped).
Qed.

Lemma mapTokenAmounts_unfold item items :
  mapTokenAmounts this (Some (Some <$> item :: items)) =
  VaultService.bind
    (promiseAll (fun pair : list string =>
       match tokenInfosOf this (item :: items) (toKey (pair !! 1%nat)) with
       | None => inl (ConflictException "unable to find token")
       | Some result =>
           mapLoanVaultTokenAmount this (fst <$> head result)
             (snd <$> head result) (default "" (pair !! 0%nat))
             (head (activePriceMapper_query _ _ this
                      (toKey (pair !! 1%nat) ++ "-USD") 1))
       end) (split "@" <$> item :: items))
    (fun mappedItems => inr (sort comparefn mappedItems)).
Proof.
  unfold mapTokenAmounts.
  change (Some <$> item :: items) with (Some item :: (Some <$> items)).
  cbv beta iota.
  change (Some item :: (Some <$> items)) with (Some <$> item :: items).
  by rewrite promiseAll_defined.
Qed.

(** X12: [mapTokenAmounts] returns exactly when the symbol of every item
    resolves to a token object with an entry; when it throws, it throws
    Conflict for an item whose symbol does not resolve, or a TypeError for
    one whose token object is empty. *)
Theorem mapTokenAmounts_outcome items :
  ((exists out, mapTokenAmounts this (Some (Some <$> items)) = inr out) <->
   (forall item, item ∈ items ->
      exists entry rest,
        tokenInfosOf this items (symbolOf item) = Some (entry :: rest))) /\
  (forall err, mapTokenAmounts this (Some (Some <$> items)) = inl err ->
     exists item, item ∈ items /\
       ((tokenInfosOf this items (symbolOf item) = None /\
         err = ConflictException "unable to find token") \/
        (tokenInfosOf this items (symbolOf item) = Some [] /\
         err = TypeError "Cannot read properties of undefined (reading 'symbol')"))).
Proof.
  destruct items as [|item0 items'].
  { split; [|done]. split; [|by eauto]. intros _ item Hin.
    by apply elem_of_nil in Hin. }
  set (items := item0 :: items'). split; [split|].
  - intros [out Hout] item Hin.
    apply mapTokenAmounts_spec in Hout as (mapped & _ & Hall).
    apply list_elem_of_lookup in Hin as [i Hi].
    destruct (Forall2_lookup_l _ _ _ _ _ Hall Hi) as (a & _ & _ & tid & info & rest & Hres & _).
    eauto.
  - intros Hres. unfold items. rewrite mapTokenAmounts_unfold. fold items.
    destruct (promiseAll_all
      (fun pair : list string =>
         match tokenInfosOf this items (toKey (pair !! 1%nat)) with
         | None => inl (ConflictException "unable to find token")
         | Some result =>
             mapLoanVaultTokenAmount this (fst <$> head result)
               (snd <$> head result) (default "" (pair !! 0%nat))
               (head (activePriceMapper_query _ _ this
                        (toKey (pair !! 1%nat) ++ "-USD") 1))
         end) (split "@" <$> items)) as [mapped ->]; [|cbn; eauto].
    intros pair Hpair. apply list_elem_of_fmap in Hpair as (item & -> & Hin).
    destruct (Hres item Hin) as ([tid info] & rest & Hitem).
    unfold symbolOf in Hitem. rewrite Hitem. cbn. eauto.
  - intros err. unfold items. rewrite mapTokenAmounts_unfold. fold items.
    unfold VaultService.bind.
    destruct (promiseAll _ _) as [err'|mapped] eqn:Hall; [|done].
    intros [= ->]. apply promiseAll_error in Hall as (pair & Hpair & Hturn).
    apply list_elem_of_fmap in Hpair as (item & -> & Hin).
    exists item. split; [done|]. unfold symbolOf.
    destruct (tokenInfosOf this items (toKey (split "@" item !! 1%nat)))
      as [[|[tid info] rest]|]; cbn in Hturn.
    + right. split; [done|]. congruence.
    + done.
    + left. split; [done|]. congruence.
Qed.

(** X13: the views [mapLiquidationBatches] returns are those of the batches,
    in their order: each has its batch's index, the batch's collaterals
    mapped by [mapTokenAmounts], and its loan mapped the same way. *)
Theorem mapLiquidationBatches_views batches views :
  mapLiquidationBatches this batches = inr views ->
  bv_index <$> views = index <$> batches /\
  Forall2 (fun batch view =>
             mapTokenAmounts this (Some (collaterals batch))
               = inr (bv_collaterals view) /\
             exists loanAmount,
               mapTokenAmounts this (Some [loan batch]) = inr [loanAmount] /\
               bv_loan view = Some loanAmount)
          batches views.
Proof.
  unfold mapLiquidationBatches. destruct batches as [|b batches].
  { intros [= <-]. split; [done|constructor]. }
  intros Hall. apply promiseAll_returns in Hall.
  assert (Hviews : Forall2 (fun batch view =>
            bv_index view = index batch /\
            mapTokenAmounts this (Some (collaterals batch))
              = inr (bv_collaterals view) /\
            exists loanAmount,
              mapTokenAmounts this (Some [loan batch]) = inr [loanAmount] /\
              bv_loan view = Some loanAmount) (b :: batches) views).
  { eapply Forall2_impl; [exact Hall|]. intros batch view Hturn.
    unfold VaultService.bind in Hturn.
    destruct (mapTokenAmounts this (Some (collaterals batch))) as [|cs]; [done|].
    destruct (mapTokenAmounts this (Some [loan batch])) as [|ls] eqn:Hloan; [done|].
    apply mapTokenAmounts_one in Hloan as [a ->]. injection Hturn as <-. cbn.
    eauto. }
  split.
  - apply Forall2_fmap_eq. eapply Forall2_impl; [exact Hviews|]. by intros ? ? [? _].
  - eapply Forall2_impl; [exact Hviews|]. by intros ? ? [_ ?].
Qed.

(** **** What the mapping throws *)



Lemma resolveScheme_cases loanSchemeId :
  resolveScheme this loanSchemeId =
  match loanSchemeMapper_get _ _ this loanSchemeId with
  | None => inl (NotFoundException "unable to find loan scheme")
  | Some loanScheme =>
      match defaultLoanSchemeMapper_get _ _ this with
      | None => inl (NotFoundException "Unable to find default scheme")
      | Some defaultSchemeId =>
          inr (mkSchemeView loanScheme
                 (bool_decide (Indexer.id loanScheme = defaultSchemeId)))
      end
  end.
Proof. reflexivity. Qed.




(** X15: the loan scheme is resolved before anything else of the vault is
    read: an unknown scheme, and then a missing default scheme, make the
    mapping throw not-found whatever the vault holds; when the mapping
    returns, the view carries the scheme's record and whether its id is the
    default's. *)
Theorem mapLoanVault_scheme details :
  match loanSchemeMapper_get _ _ this (loanSchemeId (common details)) with
  | None =>
      mapLoanVault toFixed this details
      = inl (NotFoundException "unable to find loan scheme")
  | Some loanScheme =>
      match defaultLoanSchemeMapper_get _ _ this with
      | None =>
          mapLoanVault toFixed this details
          = inl (NotFoundException "Unable to find default scheme")
      | Some defaultSchemeId =>
          forall view, mapLoanVault toFixed this details = inr view ->
            loanSchemeOf view
            = mkSchemeView loanScheme
                (bool_decide (Indexer.id loanScheme = defaultSchemeId))
      end
  end.
Proof.
  unfold mapLoanVault, mapLoanAuction, VaultService.bind.
  rewrite resolveScheme_cases.
  destruct (loanSchemeMapper_get _ _ _ _) as [loanScheme|];
    [|by case_bool_decide].
  destruct (defaultLoanSchemeMapper_get _ _ _) as [defaultSchemeId|];
    [|by case_bool_decide].
  intros view. case_bool_decide.
  - destruct details as [c f|c f]; [done|].
    destruct (mapLiquidationBatches this (batches f)); [done|].
    by intros [= <-].
  - destruct details as [c f|c f]; [|done].
    destruct (mapTokenAmounts this (collateralAmounts _ f)); [done|].
    destruct (mapTokenAmounts this (loanAmounts _ f)); [done|].
    destruct (mapTokenAmounts this (interestAmounts _ f)); [done|].
    by intros [= <-].
Qed.

Lemma mapLoanVault_shape details view :
  mapLoanVault toFixed this details = inr view ->
  vaultIdOf view = vaultId (common details) /\
  match view with
  | inr liquidated =>
      state (common details) = IN_LIQUIDATION /\
      vl_state _ liquidated = LV_IN_LIQUIDATION /\
      exists fields, details = VaultLiquidation _ (common details) fields
  | inl active =>
      state (common details) <> IN_LIQUIDATION /\
      va_state _ active = mapLoanVaultState (state (common details)) /\
      va_state _ active <> LV_IN_LIQUIDATION /\
      exists fields, details = VaultActive _ (common details) fields
  end.
Proof.
  unfold mapLoanVault, mapLoanAuction, VaultService.bind.
  rewrite resolveScheme_cases.
  destruct (loanSchemeMapper_get _ _ _ _) as [loanScheme|];
    [|by case_bool_decide].
  destruct (defaultLoanSchemeMapper_get _ _ _) as [defaultSchemeId|];
    [|by case_bool_decide].
  case_bool_decide as Hstate.
  - destruct details as [c f|c f]; [done|].
    destruct (mapLiquidationBatches this (batches f)); [done|].
    intros [= <-]. cbn in *. eauto.
  - destruct details as [c f|c f]; [|done].
    destruct (mapTokenAmounts this (collateralAmounts _ f)); [done|].
    destruct (mapTokenAmounts this (loanAmounts _ f)); [done|].
    destruct (mapTokenAmounts this (interestAmounts _ f)); [done|].
    intros [= <-]. cbn in *. split; [done|]. split; [done|]. split; [done|].
    split; [|by eauto]. by destruct (state c).
Qed.

(** X16: a vault is mapped to a liquidated view exactly when its state is
    "in liquidation", and to an active view otherwise; the view has the
    vault's id, and its state is the vault's. *)
Theorem mapLoanVault_routing details view :
  mapLoanVault toFixed this details = inr view ->
  vaultIdOf view = vaultId (common details) /\
  match view with
  | inr liquidated =>
      state (common details) = IN_LIQUIDATION /\
      vl_state _ liquidated = LV_IN_LIQUIDATION /\
      exists fields, details = VaultLiquidation _ (common details) fields
  | inl active =>
      state (common details) <> IN_LIQUIDATION /\
      va_state _ active = mapLoanVaultState (state (common details)) /\
      va_state _ active <> LV_IN_LIQUIDATION /\
      exists fields, details = VaultActive _ (common details) fields
  end.
Proof. apply mapLoanVault_shape. Qed.

(** **** [get], [list] and [listAuction] *)




(** X20: a page [list] returns has one item per vault the node listed, in the
    node's order, with the vault's id as the item's id and as its cursor; the
    node is asked for, and the page is cut at, the requested size capped at
    30. *)
Theorem listVaults_page query address page :
  listVaults toFixed this query address = inr page ->
  exists vaults,
    client_loan_listVaults _ _ this
      {| vp_start := next query; vp_limit := Z.min (size query) 30 |} address
      = inr vaults /\
    vaultIdOf <$> items _ page = (fun vault => vaultId (common vault)) <$> vaults /\
    cursors _ page = vaultIdOf <$> items _ page /\
    pageSize _ page = Z.min (size query) 30.
Proof.
  unfold listVaults, VaultService.bind. rewrite clamp_min.
  destruct (client_loan_listVaults _ _ _ _ _) as [err|vaults]; [done|].
  destruct (promiseAll _ vaults) as [err|views] eqn:Hall; [done|].
  intros [= <-]. exists vaults. cbn. split; [done|]. split; [|done].
  apply promiseAll_returns in Hall. apply Forall2_fmap_eq.
  eapply Forall2_impl; [exact Hall|]. intros vault view Hview.
  by apply mapLoanVault_shape in Hview as [? _].
Qed.

(** X21: [listAuction] maps every vault the node lists as a liquidation,
    whatever state the vault reports: each item of the page has the vault's
    id and liquidation height, state "in liquidation", and the cursor made of
    the two; the node is asked for the requested size capped at 30. *)
Theorem listAuction_page query page :
  listAuction this query = inr page ->
  exists vaults,
    client_loan_listAuctions this (auctionPagination query) = inr vaults /\
    limit (auctionPagination query) = Z.min (size query) 30 /\
    pageSize _ page = Z.min (size query) 30 /\
    cursors _ page
      = (fun item => (vl_vaultId _ item
                      ++ intToString (vl_liquidationHeight _ item))%string)
          <$> items _ page /\
    Forall2 (fun vault item =>
               exists fields,
                 vault = VaultLiquidation _ (common vault) fields /\
                 vl_vaultId _ item = vaultId (common vault) /\
                 vl_liquidationHeight _ item = liquidationHeight fields /\
                 vl_state _ item = LV_IN_LIQUIDATION)
            vaults (items _ page).
Proof.
  unfold listAuction, VaultService.bind. rewrite clamp_min.
  destruct (client_loan_listAuctions this _) as [err|vaults]; [done|].
  destruct (promiseAll _ vaults) as [err|views] eqn:Hall; [done|].
  intros [= <-]. exists vaults. cbn [items pageSize cursors].
  split; [done|]. split.
  { unfold auctionPagination. destruct (next query); cbn; apply clamp_min. }
  split; [done|]. split; [done|].
  apply promiseAll_returns in Hall. eapply Forall2_impl; [exact Hall|].
  intros vault item. unfold mapLoanAuction, VaultService.bind.
  destruct (resolveScheme this _); [done|].
  destruct vault as [c f|c f]; [done|].
  destruct (mapLiquidationBatches this (batches f)); [done|].
  intros [= <-]. cbn. eauto.
Qed.

End Mapping.

(** **** The statements at the sample data *)

Lemma mapTokenAmounts_amounts_witness :
  mapTokenAmounts service (Some (Some <$> threeItems)) = inr threeAmounts /\
  amount <$> threeAmounts ≡ₚ amountOf <$> threeItems /\
  length threeAmounts = length threeItems.
Proof.
  assert (H1 : mapTokenAmounts service (Some (Some <$> threeItems))
               = inr threeAmounts) by (vm_compute; reflexivity).
  split; [exact H1|]. exact (mapTokenAmounts_amounts service threeItems _ H1).
Defined.

Lemma mapTokenAmounts_input_order_witness :
  (mapTokenAmounts service (Some (Some <$> threeItems)) = inr threeAmounts /\
   Forall nonNegativeId threeAmounts) /\
  amount <$> threeAmounts = ["5"; "7"; "9"].
Proof.
  assert (H1 : mapTokenAmounts service (Some (Some <$> threeItems))
               = inr threeAmounts) by (vm_compute; reflexivity).
  assert (H2 : Forall nonNegativeId threeAmounts).
  { repeat constructor; unfold nonNegativeId; vm_compute; discriminate. }
  split; [by split|].
  exact (mapTokenAmounts_input_order service threeItems _ H1 H2).
Defined.

Lemma mapLiquidationBatches_views_witness :
  mapLiquidationBatches service [batchFull] = inr fullBatchViews /\
  bv_index <$> fullBatchViews = [0].
Proof.
  assert (H1 : mapLiquidationBatches service [batchFull] = inr fullBatchViews)
    by (vm_compute; reflexivity).
  split; [exact H1|].
  exact (proj1 (mapLiquidationBatches_views service [batchFull] _ H1)).
Defined.


Lemma mapLoanVault_routing_witness :
  exists view,
    mapLoanVault intToString stocked vaultActive = inr view /\
    vaultIdOf view = vault64.
Proof.
  destruct activeViews as [|view rest] eqn:Hviews; [discriminate Hviews|].
  exists view.
  assert (H1 : mapLoanVault intToString stocked vaultActive = inr view).
  { injection Hviews as <- _. vm_compute. reflexivity. }
  split; [exact H1|].
  exact (proj1 (mapLoanVault_routing intToString stocked vaultActive view H1)).
Defined.



Lemma listVaults_page_witness :
  exists page,
    listVaults intToString stocked (mkQuery 50 None) None = inr page /\
    pageSize _ page = 30 /\ length (cursors _ page) = 2%nat.
Proof.
  destruct stockedPage as [|page rest] eqn:Hpage; [discriminate Hpage|].
  exists page.
  assert (H1 : listVaults intToString stocked (mkQuery 50 None) None = inr page).
  { injection Hpage as <- _. vm_compute. reflexivity. }
  split; [exact H1|].
  destruct (listVaults_page intToString stocked _ _ page H1)
    as (vaults & _ & _ & _ & Hsize).
  split; [exact Hsize|]. injection Hpage as <- _. reflexivity.
Defined.

Lemma listAuction_page_witness :
  exists page,
    listAuction stocked (mkQuery 50 None) = inr page /\
    pageSize _ page = 30 /\ length (items _ page) = 1%nat.
Proof.
  destruct stockedAuctions as [|page rest] eqn:Hpage; [discriminate Hpage|].
  exists page.
  assert (H1 : listAuction stocked (mkQuery 50 None) = inr page).
  { injection Hpage as <- _. vm_compute. reflexivity. }
  split; [exact H1|].
  destruct (listAuction_page stocked _ page H1) as (vaults & _ & _ & Hsize & _).
  split; [exact Hsize|]. injection Hpage as <- _. reflexivity.
Defined.

End VaultMore.
